(** * Sparkify data-lake ETL ([etl.py]): relational model and properties

    The program is a PySpark batch job.  [process_song_data] projects a
    catalog DataFrame into the song and artists tables; [process_log_data]
    filters the activity log to [page = 'NextSong'] and derives the users,
    time and songplays tables.

    A DataFrame is embedded as the list of its rows, in the order in which
    the engine presents them (the activity log, whose rows are numbered by
    [monotonically_increasing_id], as the list of its engine partitions); a
    nullable column is an [option].  Row order is not part of a DataFrame's
    meaning: two runs on the same records may see them in different orders.
    Reading and writing the parquet files is taken to be the identity.  The
    relational operators used by the job ([where], [dropDuplicates],
    [row_number] over a window, [left join], [monotonically_increasing_id])
    are given as list functions in [Module Spark]; the two job functions
    are then transcribed operator by operator. *)

From Stdlib Require Import ZArith List String Bool Lia Permutation Sorted.
Import ListNotations.

Local Open Scope Z_scope.

(** ** Column values *)

(** [DoubleType] columns are only projected and compared by the job, never
    computed with: a double is carried as the 64-bit pattern the engine
    compares (normalised, so that equal doubles have equal patterns). *)
Definition double := Z.

Definition option_eq_dec {A : Type} (dec : forall x y : A, {x = y} + {x <> y})
  (x y : option A) : {x = y} + {x <> y}.
Proof. decide equality. Defined.

Definition ostring_eq_dec := option_eq_dec string_dec.
Definition oZ_eq_dec := option_eq_dec Z.eq_dec.

(** SQL [is not null]. *)
Definition is_not_null {A : Type} (x : option A) : bool :=
  match x with Some _ => true | None => false end.

(** SQL [=] on nullable strings used as a predicate: a comparison with a
    null operand is unknown, and a filter or join keeps only [true]. *)
Definition sql_eq (x y : option string) : bool :=
  match x, y with
  | Some a, Some b => String.eqb a b
  | _, _ => false
  end.

(** ** Relational operators of the engine *)

Module Spark.

Section Operators.
Context {A : Type}.
Variable A_eq_dec : forall x y : A, {x = y} + {x <> y}.

(** [dropDuplicates()] with no column list: whole-row distinct.  Rows
    already emitted are remembered in [seen]; the first occurrence of each
    row is kept. *)
Fixpoint distinct_from (seen : list A) (l : list A) : list A :=
  match l with
  | [] => []
  | x :: t =>
      if in_dec A_eq_dec x seen then distinct_from seen t
      else x :: distinct_from (x :: seen) t
  end.

Definition dropDuplicates (l : list A) : list A := distinct_from [] l.
End Operators.

(** [a LEFT JOIN b ON on]: every left row is kept; it is paired with each
    matching right row, or with null when none matches. *)
Definition left_join {A B : Type} (on : A -> B -> bool)
  (l : list A) (r : list B) : list (A * option B) :=
  flat_map (fun a =>
              match filter (on a) r with
              | [] => [(a, None)]
              | m => map (fun b => (a, Some b)) m
              end) l.

End Spark.

(** ** Catalog branch: [process_song_data] *)

(** [RawSongSchema]. *)
Module RawSong.
Record t := mk {
  artist_id : option string;
  artist_latitude : option double;
  artist_location : option string;
  artist_longitude : option double;
  artist_name : option string;
  duration : option double;
  num_songs : option Z;
  song_id : option string;
  title : option string;
  year : option Z
}.
End RawSong.

Module Song.
Record t := mk {
  song_id : option string;
  title : option string;
  artist_id : option string;
  year : option Z;
  duration : option double
}.

Definition eq_dec (x y : t) : {x = y} + {x <> y}.
Proof. decide equality; solve [apply oZ_eq_dec | apply ostring_eq_dec]. Defined.
End Song.

Module Artist.
Record t := mk {
  artist_id : option string;
  name : option string;
  location : option string;
  latitude : option double;
  longitude : option double
}.

Definition eq_dec (x y : t) : {x = y} + {x <> y}.
Proof. decide equality; solve [apply oZ_eq_dec | apply ostring_eq_dec]. Defined.
End Artist.

(** [df.select("song_id", "title", "artist_id", "year", "duration")] *)
Definition select_song (r : RawSong.t) : Song.t :=
  Song.mk (RawSong.song_id r) (RawSong.title r) (RawSong.artist_id r)
          (RawSong.year r) (RawSong.duration r).

(** [df.select("artist_id", artist_name as name, artist_location as location,
    artist_latitude as latitude, artist_longitude as longitude)] *)
Definition select_artist (r : RawSong.t) : Artist.t :=
  Artist.mk (RawSong.artist_id r) (RawSong.artist_name r)
            (RawSong.artist_location r) (RawSong.artist_latitude r)
            (RawSong.artist_longitude r).

Definition songs_table (df : list RawSong.t) : list Song.t :=
  Spark.dropDuplicates Song.eq_dec
    (filter (fun s => is_not_null (Song.song_id s)) (map select_song df)).

Definition artists_table (df : list RawSong.t) : list Artist.t :=
  Spark.dropDuplicates Artist.eq_dec
    (filter (fun a => is_not_null (Artist.artist_id a)) (map select_artist df)).

(** The two tables written by [process_song_data]. *)
Definition process_song_data (df : list RawSong.t) : list Song.t * list Artist.t :=
  (songs_table df, artists_table df).

(** ** Activity branch: [process_log_data] *)

(** [RawLogSchema]. *)
Module RawLog.
Record t := mk {
  artist : option string;
  auth : option string;
  firstName : option string;
  gender : option string;
  itemInSession : option Z;
  lastName : option string;
  length : option double;
  level : option string;
  location : option string;
  method : option string;
  page : option string;
  registration : option double;
  sessionId : option Z;
  song : option string;
  status : option Z;
  ts : option Z;
  userAgent : option string;
  userId : option string
}.
End RawLog.

(** [where("page = 'NextSong'")] *)
Definition is_next_song (r : RawLog.t) : bool :=
  sql_eq (RawLog.page r) (Some "NextSong"%string).

(** *** Window functions *)

Module Window.
Section Window.
Context {A K : Type}.
Variable K_eq_dec : forall x y : K, {x = y} + {x <> y}.
Variable key : A -> K.
(** [before x y]: the sort order allows [x] to stand before [y]. *)
Variable before : A -> A -> bool.

Definition same_key (k : K) (r : A) : bool :=
  if K_eq_dec (key r) k then true else false.

(** [Window.partitionBy(key)]: one group per distinct key value; null is a
    key value like any other. *)
Definition partitionBy (l : list A) : list (list A) :=
  map (fun k => filter (same_key k) l)
      (Spark.dropDuplicates K_eq_dec (map key l)).

(** [orderBy] inside one group.  The sort is stable: rows that tie keep the
    order in which the engine presented them. *)
Fixpoint insert_row (x : A) (s : list A) : list A :=
  match s with
  | [] => [x]
  | y :: s' => if before x y then x :: y :: s' else y :: insert_row x s'
  end.

Definition orderBy (l : list A) : list A := fold_right insert_row [] l.

Fixpoint number_from (n : Z) (l : list A) : list (A * Z) :=
  match l with
  | [] => []
  | x :: t => (x, n) :: number_from (n + 1) t
  end.

(** [row_number().over(Window.partitionBy(key).orderBy(...))]: every row
    paired with its 1-based position in its sorted group. *)
Definition row_number_over (l : list A) : list (A * Z) :=
  flat_map (fun part => number_from 1 (orderBy part)) (partitionBy l).
End Window.
End Window.

(** Order of nullable longs with null least, as the engine sorts them
    (ascending puts nulls first, descending puts them last). *)
Definition ts_le (a b : option Z) : bool :=
  match a, b with
  | None, _ => true
  | Some _, None => false
  | Some x, Some y => x <=? y
  end.

(** [orderBy(col("ts").desc())] *)
Definition ts_desc (x y : RawLog.t) : bool := ts_le (RawLog.ts y) (RawLog.ts x).

(** *** Users *)

Module Ranked.
Record t := mk {
  userId : option string;
  firstName : option string;
  lastName : option string;
  gender : option string;
  level : option string;
  ts : option Z;
  ts_rank : Z
}.
End Ranked.

Module User.
Record t := mk {
  user_id : option string;
  first_name : option string;
  last_name : option string;
  gender : option string;
  level : option string
}.

Definition eq_dec (x y : t) : {x = y} + {x <> y}.
Proof. decide equality; apply ostring_eq_dec. Defined.
End User.

Definition select_ranked (rn : RawLog.t * Z) : Ranked.t :=
  let (r, n) := rn in
  Ranked.mk (RawLog.userId r) (RawLog.firstName r) (RawLog.lastName r)
            (RawLog.gender r) (RawLog.level r) (RawLog.ts r) n.

(** First statement: the six columns plus [ts_rank], then
    [where("userId is not null")]. *)
Definition users_ranked (df : list RawLog.t) : list Ranked.t :=
  filter (fun r => is_not_null (Ranked.userId r))
    (map select_ranked
       (Window.row_number_over ostring_eq_dec RawLog.userId ts_desc df)).

Definition select_user (r : Ranked.t) : User.t :=
  User.mk (Ranked.userId r) (Ranked.firstName r) (Ranked.lastName r)
          (Ranked.gender r) (Ranked.level r).

(** Second statement: rename the columns, [where("ts_rank = 1")]. *)
Definition users_table (df : list RawLog.t) : list User.t :=
  map select_user (filter (fun r => Ranked.ts_rank r =? 1) (users_ranked df)).

(** The projection of an activity record that a user row carries. *)
Definition user_of (r : RawLog.t) : User.t :=
  User.mk (RawLog.userId r) (RawLog.firstName r) (RawLog.lastName r)
          (RawLog.gender r) (RawLog.level r).

(** Reference variant used to compare against [users_table]: null [userId]
    records are dropped before the window is evaluated, and no filter on
    [userId] follows it. *)
Definition users_table_prefilter (df : list RawLog.t) : list User.t :=
  map select_user
    (filter (fun r => Ranked.ts_rank r =? 1)
       (map select_ranked
          (Window.row_number_over ostring_eq_dec RawLog.userId ts_desc
             (filter (fun r => is_not_null (RawLog.userId r)) df)))).

(** *** Timestamps and the calendar *)

(** Python truth value of the UDF argument in [if x:]: [None] is false and
    so is the integer zero. *)
Definition truthy (x : option Z) : bool :=
  match x with
  | Some v => negb (v =? 0)
  | None => false
  end.

(** [pd.to_datetime(x, unit='ms')] stored in a [TimestampType] column:
    microseconds since the epoch.  The session's and the driver's time zone
    are taken to be UTC, and [x] to lie in the range pandas represents. *)
Definition to_datetime_ms (x : Z) : Z := x * 1000.

Definition get_timestamp (x : option Z) : option Z :=
  if truthy x then option_map to_datetime_ms x else None.

Definition micros_per_hour : Z := 3600000000.
Definition micros_per_day : Z := 86400000000.

(** Days since 1970-01-01 of the date a timestamp falls on. *)
Definition epoch_day (t : Z) : Z := t / micros_per_day.

(** Proleptic Gregorian calendar: the civil date [(y, m, d)] of a day number,
    computed on 400-year eras with the year starting in March. *)
Definition civil_from_days (days : Z) : Z * Z * Z :=
  let z := days + 719468 in
  let era := z / 146097 in
  let doe := z - era * 146097 in
  let yoe := (doe - doe / 1460 + doe / 36524 - doe / 146096) / 365 in
  let doy := doe - (365 * yoe + yoe / 4 - yoe / 100) in
  let mp := (5 * doy + 2) / 153 in
  let d := doy - (153 * mp + 2) / 5 + 1 in
  let m := if mp <? 10 then mp + 3 else mp - 9 in
  let y := yoe + era * 400 + (if m <=? 2 then 1 else 0) in
  (y, m, d).

(** The day number of a civil date (inverse direction). *)
Definition days_from_civil (y m d : Z) : Z :=
  let y' := if m <=? 2 then y - 1 else y in
  let era := y' / 400 in
  let yoe := y' - era * 400 in
  let doy := (153 * (if 2 <? m then m - 3 else m + 9) + 2) / 5 + d - 1 in
  let doe := yoe * 365 + yoe / 4 - yoe / 100 + doy in
  era * 146097 + doe - 719468.

Definition year (t : Z) : Z := fst (fst (civil_from_days (epoch_day t))).
Definition month (t : Z) : Z := snd (fst (civil_from_days (epoch_day t))).
Definition dayofmonth (t : Z) : Z := snd (civil_from_days (epoch_day t)).
Definition hour (t : Z) : Z := (t / micros_per_hour) mod 24.

(** Day of the week, 0 = Monday (1970-01-01 was a Thursday). *)
Definition weekday_index (t : Z) : Z := (epoch_day t + 3) mod 7.

(** [weekofyear]: ISO-8601 week number, the week of the year that holds the
    Thursday of the timestamp's week. *)
Definition weekofyear (t : Z) : Z :=
  let thursday := epoch_day t - weekday_index t + 3 in
  let y := fst (fst (civil_from_days thursday)) in
  (thursday - days_from_civil y 1 1) / 7 + 1.

(** [date_format(start_time, 'E')]: abbreviated day name. *)
Definition day_names : list string :=
  ["Mon"; "Tue"; "Wed"; "Thu"; "Fri"; "Sat"; "Sun"]%string.

Definition date_format_E (t : Z) : string :=
  nth (Z.to_nat (weekday_index t)) day_names ""%string.

Module Time.
Record t := mk {
  start_time : option Z;
  hour : option Z;
  day : option Z;
  week : option Z;
  month : option Z;
  year : option Z;
  weekday : option string
}.

Definition eq_dec (x y : t) : {x = y} + {x <> y}.
Proof. decide equality; solve [apply oZ_eq_dec | apply ostring_eq_dec]. Defined.
End Time.

(** [df.withColumn("start_time", get_timestamp("ts"))] *)
Definition with_start_time (r : RawLog.t) : RawLog.t * option Z :=
  (r, get_timestamp (RawLog.ts r)).

(** The select list of the time query, evaluated on one [log_raw] row. *)
Definition select_time (a : RawLog.t * option Z) : Time.t :=
  let st := snd a in
  Time.mk st (option_map hour st) (option_map dayofmonth st)
          (option_map weekofyear st) (option_map month st)
          (option_map year st) (option_map date_format_E st).

(** [SELECT ... FROM log_raw WHERE start_time is not null], then
    [dropDuplicates()]. *)
Definition time_table (log_raw : list (RawLog.t * option Z)) : list Time.t :=
  Spark.dropDuplicates Time.eq_dec
    (map select_time (filter (fun a => is_not_null (snd a)) log_raw)).

(** *** Song plays *)

(** Java [long] arithmetic: wrap to the signed 64-bit range. *)
Definition wrap64 (x : Z) : Z := (x + 2 ^ 63) mod 2 ^ 64 - 2 ^ 63.

(** [monotonically_increasing_id()]: the index of the engine partition in
    the upper 31 bits, the record number within the partition in the lower
    33 bits. *)
Definition monotonically_increasing_id (partition_index count : Z) : Z :=
  wrap64 (Z.shiftl partition_index 33 + count).

Module LogRaw.
Record t := mk {
  row : RawLog.t;
  start_time : option Z;
  songplay_id : Z
}.
End LogRaw.

Fixpoint number_rows (p count : Z) (part : list (RawLog.t * option Z))
  : list LogRaw.t :=
  match part with
  | [] => []
  | a :: t =>
      LogRaw.mk (fst a) (snd a) (monotonically_increasing_id p count)
        :: number_rows p (count + 1) t
  end.

Fixpoint number_partitions (p : Z) (df : list (list (RawLog.t * option Z)))
  : list (list LogRaw.t) :=
  match df with
  | [] => []
  | part :: t => number_rows p 0 part :: number_partitions (p + 1) t
  end.

(** [df.select("*").withColumn("songplay_id", monotonically_increasing_id())]
    on a DataFrame given by its engine partitions. *)
Definition with_songplay_id (df : list (list (RawLog.t * option Z)))
  : list (list LogRaw.t) :=
  number_partitions 0 df.

Module SongPlay.
Record t := mk {
  songplay_id : Z;
  start_time : option Z;
  song_id : option string;
  artist_id : option string;
  user_id : option string;
  session_id : option Z;
  location : option string;
  level : option string;
  user_agent : option string
}.

Definition eq_dec (x y : t) : {x = y} + {x <> y}.
Proof.
  decide equality;
    solve [apply oZ_eq_dec | apply ostring_eq_dec | apply Z.eq_dec].
Defined.
End SongPlay.

(** [ON a.song = b.title] *)
Definition on_title (a : LogRaw.t) (b : Song.t) : bool :=
  sql_eq (RawLog.song (LogRaw.row a)) (Song.title b).

(** [ON a.artist = c.name] *)
Definition on_name (ab : LogRaw.t * option Song.t) (c : Artist.t) : bool :=
  sql_eq (RawLog.artist (LogRaw.row (fst ab))) (Artist.name c).

(** The select list of the songplays query on one joined row; a column of a
    null-extended side is null. *)
Definition select_songplay
  (abc : LogRaw.t * option Song.t * option Artist.t) : SongPlay.t :=
  let '(a, b, c) := abc in
  SongPlay.mk (LogRaw.songplay_id a) (LogRaw.start_time a)
    (match b with Some s => Song.song_id s | None => None end)
    (match c with Some x => Artist.artist_id x | None => None end)
    (RawLog.userId (LogRaw.row a)) (RawLog.sessionId (LogRaw.row a))
    (RawLog.location (LogRaw.row a)) (RawLog.level (LogRaw.row a))
    (RawLog.userAgent (LogRaw.row a)).

Definition songplays_table (log_raw : list LogRaw.t)
  (songs : list Song.t) (artists : list Artist.t) : list SongPlay.t :=
  Spark.dropDuplicates SongPlay.eq_dec
    (map select_songplay
       (Spark.left_join on_name (Spark.left_join on_title log_raw songs)
          artists)).

(** *** The job *)

Module Tables.
Record t := mk {
  users : list User.t;
  time : list Time.t;
  songplays : list SongPlay.t
}.
End Tables.

(** The activity log filtered to song plays, partition by partition. *)
Definition next_song_rows (log : list (list RawLog.t)) : list (list RawLog.t) :=
  map (filter is_next_song) log.

(** The second [log_raw] view: start time and songplay id added. *)
Definition log_raw_view (log : list (list RawLog.t)) : list LogRaw.t :=
  List.concat (with_songplay_id (map (map with_start_time) (next_song_rows log))).

(** [process_log_data]: [log] is the activity DataFrame as read, given by
    its engine partitions; [song_df] and [artists_df] are the tables read
    back from the output location. *)
Definition process_log_data (log : list (list RawLog.t))
  (song_df : list Song.t) (artists_df : list Artist.t) : Tables.t :=
  let df := next_song_rows log in
  Tables.mk
    (users_table (List.concat df))
    (time_table (map with_start_time (List.concat df)))
    (songplays_table (log_raw_view log) song_df artists_df).

(** [main]: the catalog branch, then the activity branch on its output. *)
Definition main (catalog : list RawSong.t) (log : list (list RawLog.t))
  : list Song.t * list Artist.t * Tables.t :=
  let (songs, artists) := process_song_data catalog in
  (songs, artists, process_log_data log songs artists).


(** ** Vocabulary for the statements *)

(** The row ranked first in the window group of key [k]. *)
Definition top_ranked (df : list RawLog.t) (k : option string) : list RawLog.t :=
  firstn 1
    (Window.orderBy ts_desc
       (filter (Window.same_key ostring_eq_dec RawLog.userId k) df)).

(** [r] is a most recent record of its user: no record of [df] with the same
    [userId] has a greater [ts] (a null [ts] counting as least). *)
Definition is_latest (df : list RawLog.t) (r : RawLog.t) : Prop :=
  In r df /\
  forall r', In r' df -> RawLog.userId r' = RawLog.userId r ->
             ts_le (RawLog.ts r') (RawLog.ts r) = true.

(** Rows of the user table for user [u]. *)
Definition rows_of_user (u : string) (t : list User.t) : list User.t :=
  filter (fun row => if ostring_eq_dec (User.user_id row) (Some u)
                     then true else false) t.

(** For each user (non-null [userId]), the most recent records that tie on
    [ts] carry the same user attributes. *)
Definition ties_agree (df : list RawLog.t) : Prop :=
  forall r1 r2, is_latest df r1 -> is_latest df r2 ->
                RawLog.userId r1 <> None ->
                RawLog.userId r1 = RawLog.userId r2 -> user_of r1 = user_of r2.

(** The sizes within which [monotonically_increasing_id] is documented to
    work: the partition index fits 31 bits and the record number within a
    partition fits 33 bits. *)
Definition id_capacity {A : Type} (df : list (list A)) : Prop :=
  Z.of_nat (List.length df) <= 2 ^ 31 /\
  Forall (fun part => Z.of_nat (List.length part) <= 2 ^ 33) df.

(** No two songs share a (non-null) title; no two artists share a
    (non-null) name. *)
Definition unique_titles (songs : list Song.t) : Prop :=
  NoDup (filter is_not_null (map Song.title songs)).

Definition unique_names (artists : list Artist.t) : Prop :=
  NoDup (filter is_not_null (map Artist.name artists)).

(** ** Sample inputs *)

Section Samples.
Local Open Scope string_scope.

(** A catalog record with the given song id, title, artist id and artist
    name; the remaining columns are null. *)
Definition catalog_record (sid title aid name : option string) : RawSong.t :=
  RawSong.mk aid None None None name None None sid title None.

(** Two catalog records with the same [song_id] and [artist_id] that differ
    in title and in artist name. *)
Definition intro_record : RawSong.t :=
  catalog_record (Some "S1") (Some "Intro") (Some "A1") (Some "Band").

Definition outro_record : RawSong.t :=
  catalog_record (Some "S1") (Some "Outro") (Some "A1") (Some "The Band").

Definition sample_catalog : list RawSong.t := [intro_record; outro_record].

(** A song play of user [u] at subscription level [lvl] and time [t]; the
    remaining columns are null. *)
Definition play (u lvl : option string) (t : option Z) : RawLog.t :=
  RawLog.mk None None None None None None None lvl None None
            (Some "NextSong") None None None None t None u.

(** One user, three plays: free at 100, paid at 300, free at 200. *)
Definition sample_history : list RawLog.t :=
  [ play (Some "u") (Some "free") (Some 100);
    play (Some "u") (Some "paid") (Some 300);
    play (Some "u") (Some "free") (Some 200) ].

(** One user, two plays at the same [ts] with different levels, presented
    by the engine in either order. *)
Definition tied_log : list (list RawLog.t) :=
  [[ play (Some "u") (Some "free") (Some 100);
     play (Some "u") (Some "paid") (Some 100) ]].

Definition tied_log_swapped : list (list RawLog.t) :=
  [[ play (Some "u") (Some "paid") (Some 100);
     play (Some "u") (Some "free") (Some 100) ]].

(** Two users with one play each, in either order. *)
Definition duo_log : list (list RawLog.t) :=
  [[ play (Some "u") (Some "free") (Some 100) ];
   [ play (Some "v") (Some "paid") (Some 100) ]].

Definition duo_log_swapped : list (list RawLog.t) :=
  [[ play (Some "v") (Some "paid") (Some 100);
     play (Some "u") (Some "free") (Some 100) ]].

(** A catalog in which two songs with different ids share the title
    "Intro", and a log with one play of that title. *)
Definition fanout_catalog : list RawSong.t :=
  [ catalog_record (Some "S1") (Some "Intro") (Some "A1") (Some "Band");
    catalog_record (Some "S2") (Some "Intro") (Some "A2") (Some "Choir") ].

Definition listen (title : option string) (t : option Z) : RawLog.t :=
  RawLog.mk None None None None None None None None None None
            (Some "NextSong") None None title None t None (Some "u").

(** A play at 1541105830796 ms after the epoch. *)
Definition november_play : RawLog.t :=
  listen (Some "Intro") (Some 1541105830796).

Definition fanout_log : list (list RawLog.t) := [[ november_play ]].

(** A log with one play at the epoch itself. *)
Definition epoch_log : list (list RawLog.t) :=
  [[ listen (Some "Intro") (Some 0) ]].

(** A page view that is not a song play. *)
Definition login_visit : RawLog.t :=
  RawLog.mk None None None None None None None (Some "free") None None
            (Some "Login") None None None None (Some 1541105830000) None
            (Some "u").

(** The first song play row that [main] derives from [fanout_catalog] and
    [fanout_log]. *)
Definition fanout_row : SongPlay.t :=
  SongPlay.mk 0 (Some 1541105830796000) (Some "S1") None (Some "u")
              None None None None.

(** The time row of [november_play]. *)
Definition november_row : Time.t :=
  Time.mk (Some 1541105830796000) (Some 20) (Some 1) (Some 44) (Some 11)
          (Some 2018) (Some "Thu").


(** The records of [sample_history] in another order, with a play that has
    no user. *)
Definition history_log : list (list RawLog.t) :=
  [ sample_history; [ play None (Some "free") (Some 900) ] ].

Definition history_log_shuffled : list (list RawLog.t) :=
  [[ play (Some "u") (Some "free") (Some 200);
     play None (Some "free") (Some 900);
     play (Some "u") (Some "paid") (Some 300);
     play (Some "u") (Some "free") (Some 100) ]].
End Samples.
(** * Properties *)

(** ** Facts about the relational operators *)

Section DistinctFacts.
Context {A : Type}.
Variable dec : forall x y : A, {x = y} + {x <> y}.

Lemma distinct_from_In (seen l : list A) (x : A) :
  In x (Spark.distinct_from dec seen l) <-> In x l /\ ~ In x seen.
Proof.
  revert seen; induction l as [|y t IH]; intros seen; simpl.
  - tauto.
  - destruct (in_dec dec y seen) as [Hy|Hy]; simpl; rewrite IH; simpl.
    + split; [tauto|]. intros [[->|H] Hn]; tauto.
    + split.
      * intros [->|[H Hn]]; tauto.
      * intros [[->|H] Hn]; [tauto|].
        destruct (dec y x) as [->|Hne]; [tauto|]. right; tauto.
Qed.

Lemma distinct_from_NoDup (seen l : list A) :
  NoDup (Spark.distinct_from dec seen l).
Proof.
  revert seen; induction l as [|y t IH]; intros seen; simpl.
  - constructor.
  - destruct (in_dec dec y seen); [apply IH|].
    constructor; [|apply IH].
    rewrite distinct_from_In; simpl; tauto.
Qed.

Lemma distinct_from_seen_all (seen l : list A) :
  (forall x, In x l -> In x seen) -> Spark.distinct_from dec seen l = [].
Proof.
  induction l as [|y t IH]; intros H; simpl; [reflexivity|].
  destruct (in_dec dec y seen) as [Hy|Hy].
  - apply IH; intros; apply H; now right.
  - exfalso; apply Hy, H; now left.
Qed.

(** Rows of [l] that are fresh and pairwise distinct pass unchanged, and
    absorb whatever follows that repeats them. *)
Lemma distinct_from_app_absorb (seen a b : list A) :
  NoDup a -> (forall x, In x a -> ~ In x seen) ->
  (forall x, In x b -> In x a \/ In x seen) ->
  Spark.distinct_from dec seen (a ++ b) = a.
Proof.
  revert seen; induction a as [|y t IH]; intros seen Hnd Hfresh Hb; simpl.
  - apply distinct_from_seen_all; intros x Hx.
    destruct (Hb x Hx) as [[]|H]; exact H.
  - inversion Hnd as [|? ? Hy Ht]; subst.
    destruct (in_dec dec y seen) as [Hin|_].
    + exfalso; apply (Hfresh y); [now left|exact Hin].
    + f_equal; apply IH; [exact Ht| |].
      * intros x Hx [<-|Hs]; [tauto|]. apply (Hfresh x); [now right|exact Hs].
      * intros x Hx. destruct (Hb x Hx) as [[<-|H]|H]; simpl; tauto.
Qed.

(** Only membership of the rows still to come matters in [seen]. *)
Lemma distinct_from_seen_ext (seen seen' l : list A) :
  (forall x, In x l -> (In x seen <-> In x seen')) ->
  Spark.distinct_from dec seen l = Spark.distinct_from dec seen' l.
Proof.
  revert seen seen'; induction l as [|y t IH]; intros seen seen' H; simpl.
  - reflexivity.
  - assert (Hy : In y seen <-> In y seen') by (apply H; now left).
    destruct (in_dec dec y seen) as [Hi|Hi], (in_dec dec y seen') as [Hj|Hj];
      try tauto.
    + apply IH; intros; apply H; now right.
    + f_equal; apply IH; intros x Hx; simpl.
      assert (In x seen <-> In x seen') by (apply H; now right). tauto.
Qed.

Lemma distinct_from_filter (p : A -> bool) (seen l : list A) :
  Spark.distinct_from dec seen (filter p l)
  = filter p (Spark.distinct_from dec seen l).
Proof.
  revert seen; induction l as [|y t IH]; intros seen; simpl.
  - reflexivity.
  - destruct (p y) eqn:Hp; simpl.
    + destruct (in_dec dec y seen); [apply IH|].
      simpl; rewrite Hp; f_equal; apply IH.
    + destruct (in_dec dec y seen); [apply IH|].
      simpl; rewrite Hp, <- IH.
      apply distinct_from_seen_ext; intros x Hx; simpl.
      apply filter_In in Hx as [_ Hx].
      split; [tauto|]. intros [<-|H]; [congruence|exact H].
Qed.

Lemma dropDuplicates_In (l : list A) (x : A) :
  In x (Spark.dropDuplicates dec l) <-> In x l.
Proof. unfold Spark.dropDuplicates; rewrite distinct_from_In; simpl; tauto. Qed.

Lemma dropDuplicates_NoDup (l : list A) : NoDup (Spark.dropDuplicates dec l).
Proof. apply distinct_from_NoDup. Qed.

Lemma dropDuplicates_filter (p : A -> bool) (l : list A) :
  Spark.dropDuplicates dec (filter p l) = filter p (Spark.dropDuplicates dec l).
Proof. apply distinct_from_filter. Qed.

Lemma dropDuplicates_app_self (l : list A) :
  NoDup l -> Spark.dropDuplicates dec (l ++ l) = l.
Proof.
  intros H; apply distinct_from_app_absorb; [exact H| |]; simpl; tauto.
Qed.

Lemma dropDuplicates_count_occ (l : list A) (x : A) :
  In x l -> count_occ dec (Spark.dropDuplicates dec l) x = 1%nat.
Proof.
  intros H. apply NoDup_count_occ'; [apply dropDuplicates_NoDup|].
  now apply dropDuplicates_In.
Qed.
End DistinctFacts.

(** ** Song and artist tables *)

Lemma songs_table_In (df : list RawSong.t) (s : Song.t) :
  In s (songs_table df) <->
  exists r, In r df /\ s = select_song r /\ RawSong.song_id r <> None.
Proof.
  unfold songs_table. rewrite dropDuplicates_In, filter_In, in_map_iff.
  split.
  - intros [[r [<- Hr]] Hn]. exists r; repeat split; auto.
    simpl in Hn. destruct (RawSong.song_id r); [discriminate|discriminate Hn].
  - intros [r [Hr [-> Hn]]]. split; [exists r; auto|].
    simpl. destruct (RawSong.song_id r); [reflexivity|congruence].
Qed.

Lemma artists_table_In (df : list RawSong.t) (a : Artist.t) :
  In a (artists_table df) <->
  exists r, In r df /\ a = select_artist r /\ RawSong.artist_id r <> None.
Proof.
  unfold artists_table. rewrite dropDuplicates_In, filter_In, in_map_iff.
  split.
  - intros [[r [<- Hr]] Hn]. exists r; repeat split; auto.
    simpl in Hn. destruct (RawSong.artist_id r); [discriminate|discriminate Hn].
  - intros [r [Hr [-> Hn]]]. split; [exists r; auto|].
    simpl. destruct (RawSong.artist_id r); [reflexivity|congruence].
Qed.

Lemma songs_table_NoDup (df : list RawSong.t) : NoDup (songs_table df).
Proof. apply dropDuplicates_NoDup. Qed.

Lemma artists_table_NoDup (df : list RawSong.t) : NoDup (artists_table df).
Proof. apply dropDuplicates_NoDup. Qed.

(** C1, as stated, fails for the song and artist tables: the two records of
    [sample_catalog] share their [song_id] and their [artist_id], and both
    tables keep two rows with the same key. *)
Lemma song_artist_keys_can_repeat :
  ~ NoDup (map Song.song_id (fst (process_song_data sample_catalog))) /\
  ~ NoDup (map Artist.artist_id (snd (process_song_data sample_catalog))).
Proof.
  split; vm_compute; intros H; inversion H as [|? ? Hn _]; apply Hn; now left.
Qed.

(** C6: deduplication of the song and artist tables is on the whole row.
    Two catalog records that share a non-null [song_id] (resp. [artist_id])
    but whose projected rows differ are both present, each exactly once; and
    every projected row with a non-null key occurs exactly once, so records
    equal in every projected field collapse to one row. *)
Theorem song_artist_dedup_is_whole_row (df : list RawSong.t) (r1 r2 : RawSong.t) :
  In r1 df -> In r2 df ->
  (RawSong.song_id r1 = RawSong.song_id r2 -> RawSong.song_id r1 <> None ->
   select_song r1 <> select_song r2 ->
   In (select_song r1) (songs_table df) /\ In (select_song r2) (songs_table df))
  /\
  (RawSong.artist_id r1 = RawSong.artist_id r2 -> RawSong.artist_id r1 <> None ->
   select_artist r1 <> select_artist r2 ->
   In (select_artist r1) (artists_table df) /\
   In (select_artist r2) (artists_table df))
  /\
  (RawSong.song_id r1 <> None ->
   count_occ Song.eq_dec (songs_table df) (select_song r1) = 1%nat)
  /\
  (RawSong.artist_id r1 <> None ->
   count_occ Artist.eq_dec (artists_table df) (select_artist r1) = 1%nat).
Proof.
  intros H1 H2. repeat split.
  - apply songs_table_In; exists r1; auto.
  - apply songs_table_In; exists r2; repeat split; auto; congruence.
  - apply artists_table_In; exists r1; auto.
  - apply artists_table_In; exists r2; repeat split; auto; congruence.
  - intros Hn. apply NoDup_count_occ'; [apply songs_table_NoDup|].
    apply songs_table_In; exists r1; auto.
  - intros Hn. apply NoDup_count_occ'; [apply artists_table_NoDup|].
    apply artists_table_In; exists r1; auto.
Qed.

Lemma song_artist_dedup_is_whole_row_sample :
  (In (select_song intro_record) (songs_table sample_catalog) /\
   In (select_song outro_record) (songs_table sample_catalog)) /\
  (In (select_artist intro_record) (artists_table sample_catalog) /\
   In (select_artist outro_record) (artists_table sample_catalog)) /\
  count_occ Song.eq_dec (songs_table sample_catalog)
    (select_song intro_record) = 1%nat /\
  count_occ Artist.eq_dec (artists_table sample_catalog)
    (select_artist intro_record) = 1%nat.
Proof.
  destruct (song_artist_dedup_is_whole_row sample_catalog
              intro_record outro_record)
    as [Hs [Ha [Hcs Hca]]].
  - simpl; auto.
  - simpl; auto.
  - split; [apply Hs|split; [apply Ha|split; [apply Hcs|apply Hca]]];
      try reflexivity; discriminate.
Defined.

(** C8: extraction is idempotent under repetition.  Deduplicating the union
    of two runs on the same catalog gives back the table of a single run,
    row for row, for the song table and for the artist table. *)
Theorem song_artist_extraction_idempotent (df : list RawSong.t) :
  Spark.dropDuplicates Song.eq_dec (songs_table df ++ songs_table df)
  = songs_table df /\
  Spark.dropDuplicates Artist.eq_dec (artists_table df ++ artists_table df)
  = artists_table df.
Proof.
  split; apply dropDuplicates_app_self.
  - apply songs_table_NoDup.
  - apply artists_table_NoDup.
Qed.

(** ** Windows *)

Section OrderFacts.
Context {A : Type}.
Variable before : A -> A -> bool.
Hypothesis before_total : forall x y, before x y = true \/ before y x = true.
Hypothesis before_trans :
  forall x y z, before x y = true -> before y z = true -> before x z = true.

Lemma insert_row_In (x y : A) (s : list A) :
  In y (Window.insert_row before x s) <-> y = x \/ In y s.
Proof.
  induction s as [|z s IH]; simpl.
  - intuition congruence.
  - destruct (before x z); simpl; [intuition congruence|].
    rewrite IH; intuition congruence.
Qed.

Lemma orderBy_In (y : A) (l : list A) :
  In y (Window.orderBy before l) <-> In y l.
Proof.
  induction l as [|x l IH]; simpl; [tauto|].
  rewrite insert_row_In, IH; intuition congruence.
Qed.

(** The first row of a sorted group stands before every row of the group. *)
Lemma orderBy_head (l : list A) (r : A) (rest : list A) :
  Window.orderBy before l = r :: rest ->
  forall y, In y l -> before r y = true.
Proof.
  revert r rest; induction l as [|x l IH]; intros r rest Hs y Hy.
  - destruct Hy.
  - simpl in Hs.
    destruct (Window.orderBy before l) as [|r0 rest0] eqn:Hl.
    + simpl in Hs; injection Hs as <- <-.
      destruct Hy as [<-|Hy].
      * destruct (before_total x x); assumption.
      * apply orderBy_In in Hy. rewrite Hl in Hy; destruct Hy.
    + simpl in Hs. destruct (before x r0) eqn:Hb.
      * injection Hs as <- <-. destruct Hy as [<-|Hy].
        -- destruct (before_total x x); assumption.
        -- apply before_trans with r0; [exact Hb|]. now apply (IH r0 rest0).
      * injection Hs as <- <-. destruct Hy as [<-|Hy].
        -- destruct (before_total r0 x) as [H|H]; [exact H|congruence].
        -- now apply (IH r0 rest0).
Qed.

Lemma orderBy_nonempty (l : list A) (x : A) :
  In x l -> exists r rest, Window.orderBy before l = r :: rest.
Proof.
  intros Hx. destruct (Window.orderBy before l) as [|r rest] eqn:Hl.
  - apply orderBy_In in Hx. rewrite Hl in Hx; destruct Hx.
  - eauto.
Qed.

End OrderFacts.

Lemma same_key_true {A K : Type} (K_eq_dec : forall x y : K, {x = y} + {x <> y})
  (key : A -> K) (k : K) (r : A) :
  Window.same_key K_eq_dec key k r = true <-> key r = k.
Proof.
  unfold Window.same_key; destruct (K_eq_dec (key r) k); split;
    congruence.
Qed.

Lemma ts_le_total (a b : option Z) : ts_le a b = true \/ ts_le b a = true.
Proof.
  destruct a as [x|], b as [y|]; simpl; auto.
  destruct (Z.leb_spec x y); [now left|right]. apply Z.leb_le; lia.
Qed.

Lemma ts_le_trans (a b c : option Z) :
  ts_le a b = true -> ts_le b c = true -> ts_le a c = true.
Proof.
  destruct a as [x|], b as [y|], c as [z|]; simpl; try congruence.
  rewrite !Z.leb_le; lia.
Qed.

Lemma ts_desc_total (x y : RawLog.t) : ts_desc x y = true \/ ts_desc y x = true.
Proof. unfold ts_desc; destruct (ts_le_total (RawLog.ts y) (RawLog.ts x)); auto. Qed.

Lemma ts_desc_trans (x y z : RawLog.t) :
  ts_desc x y = true -> ts_desc y z = true -> ts_desc x z = true.
Proof. unfold ts_desc; intros; eapply ts_le_trans; eauto. Qed.

(** ** User table *)

Lemma top_ranked_sound (df : list RawLog.t) (k : option string) (r : RawLog.t) :
  In r (top_ranked df k) -> top_ranked df k = [r] /\
                            RawLog.userId r = k /\ is_latest df r.
Proof.
  unfold top_ranked.
  destruct (Window.orderBy ts_desc
              (filter (Window.same_key ostring_eq_dec RawLog.userId k) df))
    as [|r0 rest] eqn:Hs; simpl; [tauto|].
  intros [<-|[]].
  assert (Hin : In r0 (filter (Window.same_key ostring_eq_dec RawLog.userId k) df)).
  { rewrite <- (orderBy_In ts_desc), Hs; now left. }
  apply filter_In in Hin as [Hdf Hk]. apply same_key_true in Hk.
  repeat split; auto.
  intros r' Hr' Hkey.
  apply (orderBy_head ts_desc ts_desc_total ts_desc_trans _ _ _ Hs).
  apply filter_In; split; [exact Hr'|]. apply same_key_true; congruence.
Qed.

Lemma top_ranked_exists (df : list RawLog.t) (x : RawLog.t) :
  In x df -> exists r, top_ranked df (RawLog.userId x) = [r].
Proof.
  intros Hx. unfold top_ranked.
  destruct (orderBy_nonempty ts_desc
              (filter (Window.same_key ostring_eq_dec RawLog.userId
                         (RawLog.userId x)) df) x) as [r [rest ->]].
  - apply filter_In; split; [exact Hx|]. now apply same_key_true.
  - exists r; reflexivity.
Qed.

Lemma no_rank_one_after (s : list RawLog.t) (n : Z) :
  1 < n ->
  filter (fun r => Ranked.ts_rank r =? 1)
    (filter (fun r => is_not_null (Ranked.userId r))
       (map select_ranked (Window.number_from n s))) = [].
Proof.
  revert n; induction s as [|r s IH]; intros n Hn; simpl; [reflexivity|].
  destruct (is_not_null (RawLog.userId r)); simpl.
  - destruct (Z.eqb_spec n 1); [lia|]. apply IH; lia.
  - apply IH; lia.
Qed.

Lemma no_rank_one_after_unfiltered (s : list RawLog.t) (n : Z) :
  1 < n ->
  filter (fun r => Ranked.ts_rank r =? 1)
    (map select_ranked (Window.number_from n s)) = [].
Proof.
  revert n; induction s as [|r s IH]; intros n Hn; simpl; [reflexivity|].
  destruct (Z.eqb_spec n 1); [lia|]. apply IH; lia.
Qed.

(** One window group contributes its first row, unless its key is null. *)
Lemma group_rank_one (k : option string) (s : list RawLog.t) :
  Forall (fun r => RawLog.userId r = k) s ->
  map select_user
    (filter (fun r => Ranked.ts_rank r =? 1)
       (filter (fun r => is_not_null (Ranked.userId r))
          (map select_ranked (Window.number_from 1 s))))
  = if is_not_null k then map user_of (firstn 1 s) else [].
Proof.
  intros H. destruct s as [|r s]; simpl.
  - now destruct (is_not_null k).
  - inversion H as [|? ? Hr _]; subst.
    destruct (is_not_null (RawLog.userId r)); simpl.
    + now rewrite no_rank_one_after by lia.
    + now rewrite no_rank_one_after by lia.
Qed.

Lemma group_rank_one_unfiltered (s : list RawLog.t) :
  map select_user
    (filter (fun r => Ranked.ts_rank r =? 1)
       (map select_ranked (Window.number_from 1 s)))
  = map user_of (firstn 1 s).
Proof.
  destruct s as [|r s]; simpl; [reflexivity|].
  now rewrite no_rank_one_after_unfiltered by lia.
Qed.

Lemma sorted_group_keys (df : list RawLog.t) (k : option string) :
  Forall (fun r => RawLog.userId r = k)
    (Window.orderBy ts_desc
       (filter (Window.same_key ostring_eq_dec RawLog.userId k) df)).
Proof.
  apply Forall_forall; intros r Hr.
  rewrite (orderBy_In ts_desc) in Hr. apply filter_In in Hr as [_ Hr].
  now apply same_key_true in Hr.
Qed.

(** The user table, group by group: each non-null key of the window
    contributes the projection of its first-ranked record. *)
Lemma users_table_by_group (df : list RawLog.t) :
  users_table df
  = flat_map (fun k => if is_not_null k then map user_of (top_ranked df k)
                       else [])
      (Spark.dropDuplicates ostring_eq_dec (map RawLog.userId df)).
Proof.
  unfold users_table, users_ranked, Window.row_number_over, Window.partitionBy.
  induction (Spark.dropDuplicates ostring_eq_dec (map RawLog.userId df))
    as [|k ks IH]; simpl; [reflexivity|].
  rewrite map_app, !filter_app, map_app, IH. f_equal.
  apply group_rank_one, sorted_group_keys.
Qed.

Lemma users_table_In (df : list RawLog.t) (row : User.t) :
  In row (users_table df) <->
  exists r, In r df /\ RawLog.userId r <> None /\
            top_ranked df (RawLog.userId r) = [r] /\ row = user_of r.
Proof.
  rewrite users_table_by_group, in_flat_map. split.
  - intros [k [_ Hrow]].
    destruct k as [u|]; simpl in Hrow; [|destruct Hrow].
    apply in_map_iff in Hrow as [r [<- Hr]].
    destruct (top_ranked_sound _ _ _ Hr) as [Htop [Hk [Hin _]]].
    exists r; repeat split; auto; congruence.
  - intros [r [Hin [Hn [Htop ->]]]].
    exists (RawLog.userId r). split.
    + apply dropDuplicates_In, in_map, Hin.
    + destruct (RawLog.userId r); [|congruence]. simpl.
      rewrite Htop; now left.
Qed.

Lemma users_table_keys_over (df : list RawLog.t) (ks : list (option string)) :
  (forall k, In k ks -> In k (map RawLog.userId df)) ->
  map User.user_id
    (flat_map (fun k => if is_not_null k then map user_of (top_ranked df k)
                        else []) ks)
  = filter is_not_null ks.
Proof.
  induction ks as [|k ks IH]; intros H; simpl; [reflexivity|].
  rewrite map_app, IH by (intros; apply H; now right).
  pose proof (H k (or_introl eq_refl)) as Hk0.
  apply in_map_iff in Hk0 as [x [Hx Hin]].
  destruct (top_ranked_exists df x Hin) as [r Hr]. rewrite Hx in Hr.
  destruct (top_ranked_sound df k r) as [_ [Hk _]]; [rewrite Hr; now left|].
  destruct k as [u|]; simpl; [|reflexivity].
  now rewrite Hr; simpl; rewrite Hk.
Qed.

(** The keys of the user table are the distinct non-null [userId] values. *)
Lemma users_table_keys (df : list RawLog.t) :
  map User.user_id (users_table df)
  = filter is_not_null (Spark.dropDuplicates ostring_eq_dec (map RawLog.userId df)).
Proof.
  rewrite users_table_by_group. apply users_table_keys_over.
  intros k; apply dropDuplicates_In.
Qed.

Lemma users_table_keys_NoDup (df : list RawLog.t) :
  NoDup (map User.user_id (users_table df)).
Proof. rewrite users_table_keys. apply NoDup_filter, dropDuplicates_NoDup. Qed.

Lemma rows_of_user_other (u : string) (df : list RawLog.t)
  (ks : list (option string)) :
  ~ In (Some u) ks ->
  rows_of_user u
    (flat_map (fun k => if is_not_null k then map user_of (top_ranked df k)
                        else []) ks) = [].
Proof.
  induction ks as [|k ks IH]; intros Hn; simpl; [reflexivity|].
  unfold rows_of_user in *. rewrite filter_app, IH by (simpl in Hn; tauto).
  rewrite app_nil_r.
  destruct k as [v|]; simpl; [|reflexivity].
  destruct (top_ranked df (Some v)) as [|r t] eqn:Ht; [reflexivity|].
  destruct (top_ranked_sound df (Some v) r) as [Heq [Hk _]];
    [rewrite Ht; now left|].
  rewrite Ht in Heq; injection Heq as ->. simpl.
  destruct (ostring_eq_dec (RawLog.userId r) (Some u)) as [E|E];
    [|reflexivity].
  exfalso; apply Hn; left; congruence.
Qed.

Lemma rows_of_user_group (u : string) (df : list RawLog.t)
  (ks : list (option string)) :
  NoDup ks -> In (Some u) ks ->
  rows_of_user u
    (flat_map (fun k => if is_not_null k then map user_of (top_ranked df k)
                        else []) ks)
  = map user_of (top_ranked df (Some u)).
Proof.
  induction ks as [|k ks IH]; intros Hnd Hin; [destruct Hin|].
  inversion Hnd as [|? ? Hk Hks]; subst. simpl.
  unfold rows_of_user in *. rewrite filter_app.
  destruct Hin as [->|Hin].
  - fold (rows_of_user u
            (flat_map (fun k => if is_not_null k
                                then map user_of (top_ranked df k) else []) ks)).
    rewrite rows_of_user_other by exact Hk. rewrite app_nil_r. simpl.
    destruct (top_ranked df (Some u)) as [|r t] eqn:Ht; [reflexivity|].
    destruct (top_ranked_sound df (Some u) r) as [Heq [Hu _]];
      [rewrite Ht; now left|].
    rewrite Ht in Heq; injection Heq as ->. simpl.
    destruct (ostring_eq_dec (RawLog.userId r) (Some u)); [reflexivity|tauto].
  - rewrite IH by assumption.
    assert (Hne : k <> Some u) by (intros ->; tauto).
    destruct k as [v|]; simpl; [|reflexivity].
    destruct (top_ranked df (Some v)) as [|r t] eqn:Ht; [reflexivity|].
    destruct (top_ranked_sound df (Some v) r) as [Heq [Hv _]];
      [rewrite Ht; now left|].
    rewrite Ht in Heq; injection Heq as ->. simpl.
    destruct (ostring_eq_dec (RawLog.userId r) (Some u)) as [E|E];
      [congruence|reflexivity].
Qed.

(** Exactly one row for a user who has a record, and it is the projection of
    a most recent record of that user. *)
Lemma users_table_latest (df : list RawLog.t) (u : string) (x : RawLog.t) :
  In x df -> RawLog.userId x = Some u ->
  exists r, is_latest df r /\ RawLog.userId r = Some u /\
            rows_of_user u (users_table df) = [user_of r].
Proof.
  intros Hx Hu.
  destruct (top_ranked_exists df x Hx) as [r Hr]. rewrite Hu in Hr.
  destruct (top_ranked_sound df (Some u) r) as [_ [Hk Hl]];
    [rewrite Hr; now left|].
  exists r; repeat split; try apply Hl; auto.
  rewrite users_table_by_group, rows_of_user_group, Hr; [reflexivity| |].
  - apply dropDuplicates_NoDup.
  - apply dropDuplicates_In. rewrite <- Hu. now apply in_map.
Qed.

Lemma next_song_rows_concat (log : list (list RawLog.t)) :
  List.concat (next_song_rows log) = filter is_next_song (List.concat log).
Proof. apply concat_filter_map. Qed.

(** C3: for every non-null [userId] [u] that occurs among the records with
    [page = 'NextSong'], the user table holds exactly one row for [u], and it
    is the projection of a record of [u] whose [ts] no other record of [u]
    exceeds.  In particular the user with plays at 100, 300, 200 and levels
    free, paid, free gets the single row with level paid. *)
Theorem users_table_latest_wins :
  (forall (log : list (list RawLog.t)) (song_df : list Song.t)
          (artists_df : list Artist.t) (u : string),
      (exists x, In x (List.concat log) /\ is_next_song x = true /\
                 RawLog.userId x = Some u) ->
      exists r, is_latest (filter is_next_song (List.concat log)) r /\
                RawLog.userId r = Some u /\
                rows_of_user u
                  (Tables.users (process_log_data log song_df artists_df))
                = [user_of r])
  /\
  map User.level (Tables.users (process_log_data [sample_history] [] []))
  = [Some "paid"%string].
Proof.
  split; [|reflexivity].
  intros log song_df artists_df u [x [Hx [Hp Hu]]].
  unfold process_log_data; simpl. rewrite next_song_rows_concat.
  apply users_table_latest with x; [|exact Hu].
  apply filter_In; auto.
Qed.

Lemma users_table_latest_wins_sample :
  (exists x, In x (List.concat [sample_history]) /\ is_next_song x = true /\
             RawLog.userId x = Some "u"%string) /\
  exists r, is_latest (filter is_next_song (List.concat [sample_history])) r /\
            RawLog.userId r = Some "u"%string /\
            rows_of_user "u"
              (Tables.users (process_log_data [sample_history] [] []))
            = [user_of r].
Proof.
  assert (H : exists x, In x (List.concat [sample_history]) /\
                        is_next_song x = true /\
                        RawLog.userId x = Some "u"%string).
  { exists (play (Some "u"%string) (Some "free"%string) (Some 100)).
    repeat split. simpl; auto. }
  split; [exact H|].
  exact (proj1 users_table_latest_wins [sample_history] [] [] "u"%string H).
Defined.

(** *** Null keys and the order of filtering *)

Lemma users_table_prefilter_by_group (df : list RawLog.t) :
  users_table_prefilter df
  = flat_map (fun k =>
                map user_of
                  (top_ranked (filter (fun r => is_not_null (RawLog.userId r)) df) k))
      (Spark.dropDuplicates ostring_eq_dec
         (map RawLog.userId (filter (fun r => is_not_null (RawLog.userId r)) df))).
Proof.
  unfold users_table_prefilter, Window.row_number_over, Window.partitionBy.
  induction (Spark.dropDuplicates ostring_eq_dec
               (map RawLog.userId
                  (filter (fun r => is_not_null (RawLog.userId r)) df)))
    as [|k ks IH]; simpl; [reflexivity|].
  rewrite map_app, filter_app, map_app, IH. f_equal.
  apply group_rank_one_unfiltered.
Qed.

Lemma map_userId_filter (df : list RawLog.t) :
  map RawLog.userId (filter (fun r => is_not_null (RawLog.userId r)) df)
  = filter is_not_null (map RawLog.userId df).
Proof.
  induction df as [|r df IH]; simpl; [reflexivity|].
  destruct (is_not_null (RawLog.userId r)); simpl; now rewrite IH.
Qed.

Lemma flat_map_filter {A B : Type} (p : A -> bool) (f : A -> list B)
  (l : list A) :
  flat_map f (filter p l) = flat_map (fun x => if p x then f x else []) l.
Proof.
  induction l as [|x l IH]; simpl; [reflexivity|].
  destruct (p x); simpl; now rewrite IH.
Qed.

(** The window group of a non-null key holds no null-key record, so
    dropping those first leaves the group as it is. *)
Lemma group_ignores_null_keys (df : list RawLog.t) (u : string) :
  filter (Window.same_key ostring_eq_dec RawLog.userId (Some u))
    (filter (fun r => is_not_null (RawLog.userId r)) df)
  = filter (Window.same_key ostring_eq_dec RawLog.userId (Some u)) df.
Proof.
  induction df as [|r df IH]; simpl; [reflexivity|].
  destruct (is_not_null (RawLog.userId r)) eqn:Hn; simpl.
  - now rewrite IH.
  - rewrite IH.
    destruct (Window.same_key ostring_eq_dec RawLog.userId (Some u) r) eqn:Hk;
      [|reflexivity].
    apply same_key_true in Hk. rewrite Hk in Hn; discriminate.
Qed.

Lemma users_table_eq_prefilter (df : list RawLog.t) :
  users_table df = users_table_prefilter df.
Proof.
  rewrite users_table_by_group, users_table_prefilter_by_group.
  rewrite map_userId_filter, dropDuplicates_filter, flat_map_filter.
  apply flat_map_ext; intros [u|]; simpl; [|reflexivity].
  unfold top_ranked. now rewrite group_ignores_null_keys.
Qed.

Lemma filter_twice {A : Type} (p : A -> bool) (l : list A) :
  filter p (filter p l) = filter p l.
Proof.
  induction l as [|x l IH]; simpl; [reflexivity|].
  destruct (p x) eqn:Hp; simpl; [rewrite Hp, IH|]; auto.
Qed.

(** C10: filtering null [userId] after the ranking, as [users_table] does,
    gives the same table as dropping the null-[userId] records before the
    ranking ([users_table_prefilter]): the null key forms a window group of
    its own, which the later filter removes whole.  Hence removing the
    null-[userId] records from the input leaves the user table unchanged. *)
Theorem users_table_filter_order (df : list RawLog.t) :
  users_table df = users_table_prefilter df /\
  users_table (filter (fun r => is_not_null (RawLog.userId r)) df)
  = users_table df.
Proof.
  split; [apply users_table_eq_prefilter|].
  rewrite !users_table_eq_prefilter. unfold users_table_prefilter.
  now rewrite filter_twice.
Qed.

(** *** Presentation order and ties *)

Lemma Permutation_filter_stable {A : Type} (p : A -> bool) (l l' : list A) :
  Permutation l l' -> Permutation (filter p l) (filter p l').
Proof.
  induction 1 as [|x l l' _ IH|x y l|l l' l'' _ IH1 _ IH2]; simpl.
  - constructor.
  - destruct (p x); [now constructor|exact IH].
  - destruct (p x), (p y); try reflexivity. apply perm_swap.
  - now transitivity (filter p l').
Qed.

Lemma is_latest_perm (df df' : list RawLog.t) (r : RawLog.t) :
  Permutation df df' -> is_latest df r -> is_latest df' r.
Proof.
  intros HP [Hin Hmax]; split.
  - now apply Permutation_in with df.
  - intros r' Hr'. apply Hmax. apply Permutation_in with df'; [|exact Hr'].
    now apply Permutation_sym.
Qed.

Lemma ties_agree_perm (df df' : list RawLog.t) :
  Permutation df df' -> ties_agree df -> ties_agree df'.
Proof.
  intros HP H r1 r2 H1 H2 Hn E.
  apply H; auto; apply is_latest_perm with df'; auto;
    now apply Permutation_sym.
Qed.

Lemma users_table_In_latest (df : list RawLog.t) (row : User.t) :
  ties_agree df ->
  In row (users_table df) <->
  exists r, is_latest df r /\ RawLog.userId r <> None /\ row = user_of r.
Proof.
  intros Hties. rewrite users_table_In. split.
  - intros [r [Hin [Hn [Htop ->]]]]. exists r; repeat split; auto;
      destruct (top_ranked_sound df (RawLog.userId r) r) as [_ [_ [H1 H2]]];
      auto; rewrite Htop; now left.
  - intros [r [Hl [Hn ->]]].
    destruct (top_ranked_exists df r (proj1 Hl)) as [r0 Hr0].
    destruct (top_ranked_sound df (RawLog.userId r) r0) as [_ [Hk Hl0]];
      [rewrite Hr0; now left|].
    exists r0; repeat split.
    + apply Hl0.
    + congruence.
    + now rewrite Hk.
    + symmetry. apply Hties; auto. congruence.
Qed.

Lemma users_table_perm (df df' : list RawLog.t) :
  Permutation df df' -> ties_agree df ->
  Permutation (users_table df) (users_table df').
Proof.
  intros HP Hties.
  apply NoDup_Permutation.
  - eapply NoDup_map_inv, users_table_keys_NoDup.
  - eapply NoDup_map_inv, users_table_keys_NoDup.
  - intros row.
    rewrite (users_table_In_latest df row Hties).
    rewrite (users_table_In_latest df' row (ties_agree_perm _ _ HP Hties)).
    split; intros [r [Hl H]]; exists r; (split; [|exact H]).
    + now apply is_latest_perm with df.
    + apply is_latest_perm with df'; [now apply Permutation_sym|exact Hl].
Qed.

(** With a tie the selected record does depend on the order in which the
    records are presented: the two plays of [tied_log] tie on [ts] and differ
    in level, and presenting them in the other order gives the other row. *)
Lemma users_table_tie_depends_on_order :
  Permutation (List.concat tied_log) (List.concat tied_log_swapped) /\
  ~ Permutation (Tables.users (process_log_data tied_log [] []))
                (Tables.users (process_log_data tied_log_swapped [] [])).
Proof.
  split.
  - simpl. apply perm_swap.
  - intros H. apply Permutation_length_1_inv in H. discriminate H.
Qed.

(** When, for each user, the most recent records that tie on [ts] agree on
    the user attributes (in particular when no two records of a user tie on
    the greatest [ts]), the user table does not depend on the order in which
    the records are presented. *)
Theorem users_table_order_independent
  (log log' : list (list RawLog.t))
  (song_df song_df' : list Song.t) (artists_df artists_df' : list Artist.t) :
  Permutation (List.concat log) (List.concat log') ->
  ties_agree (filter is_next_song (List.concat log)) ->
  Permutation (Tables.users (process_log_data log song_df artists_df))
              (Tables.users (process_log_data log' song_df' artists_df')).
Proof.
  intros HP Hties. unfold process_log_data; simpl.
  rewrite !next_song_rows_concat.
  apply users_table_perm; [|exact Hties].
  now apply Permutation_filter_stable.
Qed.

Lemma users_table_order_independent_sample :
  Permutation (List.concat history_log) (List.concat history_log_shuffled) /\
  ties_agree (filter is_next_song (List.concat history_log)) /\
  Permutation (Tables.users (process_log_data history_log [] []))
              (Tables.users (process_log_data history_log_shuffled [] [])).
Proof.
  assert (HP : Permutation (List.concat history_log)
                           (List.concat history_log_shuffled)).
  { simpl.
    apply Permutation_trans
      with ([play (Some "u"%string) (Some "paid"%string) (Some 300);
             play (Some "u"%string) (Some "free"%string) (Some 200);
             play None (Some "free"%string) (Some 900)]
            ++ [play (Some "u"%string) (Some "free"%string) (Some 100)]).
    - apply Permutation_cons_append.
    - simpl. apply Permutation_trans
        with (play (Some "u"%string) (Some "free"%string) (Some 200)
              :: play (Some "u"%string) (Some "paid"%string) (Some 300)
              :: [play None (Some "free"%string) (Some 900);
                  play (Some "u"%string) (Some "free"%string) (Some 100)]).
      + apply perm_swap.
      + apply perm_skip, perm_swap. }
  assert (HT : ties_agree (filter is_next_song (List.concat history_log))).
  { assert (Hl : forall r,
               is_latest (filter is_next_song (List.concat history_log)) r ->
               RawLog.userId r <> None ->
               r = play (Some "u"%string) (Some "paid"%string) (Some 300)).
    { intros r [Hin Hmax] Hn. simpl in Hin.
      destruct Hin as [<-|[<-|[<-|[<-|[]]]]].
      - specialize (Hmax (play (Some "u"%string) (Some "paid"%string)
                               (Some 300))).
        simpl in Hmax. discriminate Hmax; auto.
      - reflexivity.
      - specialize (Hmax (play (Some "u"%string) (Some "paid"%string)
                               (Some 300))).
        simpl in Hmax. discriminate Hmax; auto.
      - exfalso; apply Hn; reflexivity. }
    intros r1 r2 H1 H2 Hn E.
    rewrite (Hl r1 H1 Hn). rewrite (Hl r2 H2); [reflexivity|congruence]. }
  split; [exact HP|split; [exact HT|]].
  exact (users_table_order_independent history_log history_log_shuffled
           [] [] [] [] HP HT).
Defined.

(** *** Two runs on one input *)





(** ** Synthetic ids *)

Lemma wrap64_inj (x y : Z) :
  0 <= x < 2 ^ 64 -> 0 <= y < 2 ^ 64 -> wrap64 x = wrap64 y -> x = y.
Proof.
  unfold wrap64.
  change (2 ^ 64) with 18446744073709551616.
  change (2 ^ 63) with 9223372036854775808.
  intros Hx Hy H.
  pose proof (Z.div_mod (x + 9223372036854775808) 18446744073709551616).
  pose proof (Z.div_mod (y + 9223372036854775808) 18446744073709551616).
  pose proof (Z.mod_pos_bound (x + 9223372036854775808) 18446744073709551616).
  pose proof (Z.mod_pos_bound (y + 9223372036854775808) 18446744073709551616).
  lia.
Qed.

Lemma monotonically_increasing_id_inj (p c p' c' : Z) :
  0 <= p < 2 ^ 31 -> 0 <= c < 2 ^ 33 ->
  0 <= p' < 2 ^ 31 -> 0 <= c' < 2 ^ 33 ->
  monotonically_increasing_id p c = monotonically_increasing_id p' c' ->
  p = p' /\ c = c'.
Proof.
  unfold monotonically_increasing_id. rewrite !Z.shiftl_mul_pow2 by lia.
  change (2 ^ 31) with 2147483648. change (2 ^ 33) with 8589934592.
  intros Hp Hc Hp' Hc' H. apply wrap64_inj in H.
  - lia.
  - change (2 ^ 64) with 18446744073709551616. lia.
  - change (2 ^ 64) with 18446744073709551616. lia.
Qed.

Lemma number_rows_ids (p c : Z) (part : list (RawLog.t * option Z))
  (a : LogRaw.t) :
  In a (number_rows p c part) ->
  exists j, c <= j < c + Z.of_nat (List.length part) /\
            LogRaw.songplay_id a = monotonically_increasing_id p j.
Proof.
  revert c; induction part as [|x part IH]; intros c; simpl; [tauto|].
  intros [<-|H].
  - exists c; simpl; split; [lia|reflexivity].
  - destruct (IH _ H) as [j [Hj E]]. exists j; split; [lia|exact E].
Qed.

Lemma number_rows_NoDup (p c : Z) (part : list (RawLog.t * option Z)) :
  0 <= p < 2 ^ 31 -> 0 <= c -> c + Z.of_nat (List.length part) <= 2 ^ 33 ->
  NoDup (map LogRaw.songplay_id (number_rows p c part)).
Proof.
  revert c; induction part as [|x part IH]; intros c Hp Hc Hlen; simpl.
  - constructor.
  - simpl in Hlen. constructor.
    + intros Hin. apply in_map_iff in Hin as [a [E Ha]].
      apply number_rows_ids in Ha as [j [Hj Ej]]. rewrite Ej in E.
      apply monotonically_increasing_id_inj in E; lia.
    + apply IH; lia.
Qed.

Lemma number_partitions_ids (p : Z) (df : list (list (RawLog.t * option Z)))
  (a : LogRaw.t) :
  Forall (fun part => Z.of_nat (List.length part) <= 2 ^ 33) df ->
  In a (List.concat (number_partitions p df)) ->
  exists q j, p <= q < p + Z.of_nat (List.length df) /\ 0 <= j < 2 ^ 33 /\
              LogRaw.songplay_id a = monotonically_increasing_id q j.
Proof.
  revert p; induction df as [|part df IH]; intros p Hcap; simpl; [tauto|].
  inversion Hcap as [|? ? Hpart Hrest]; subst.
  rewrite in_app_iff. intros [H|H].
  - apply number_rows_ids in H as [j [Hj E]].
    exists p, j; repeat split; try lia; exact E.
  - destruct (IH _ Hrest H) as [q [j [Hq [Hj E]]]].
    exists q, j; repeat split; try lia; exact E.
Qed.

Lemma number_partitions_NoDup (p : Z) (df : list (list (RawLog.t * option Z))) :
  0 <= p -> p + Z.of_nat (List.length df) <= 2 ^ 31 ->
  Forall (fun part => Z.of_nat (List.length part) <= 2 ^ 33) df ->
  NoDup (map LogRaw.songplay_id (List.concat (number_partitions p df))).
Proof.
  revert p; induction df as [|part df IH]; intros p Hp Hlen Hcap; simpl.
  - constructor.
  - simpl in Hlen. inversion Hcap as [|? ? Hpart Hrest]; subst.
    rewrite map_app. apply NoDup_app.
    + apply number_rows_NoDup; lia.
    + apply IH; [lia|lia|exact Hrest].
    + intros i Hi Hi'.
      apply in_map_iff in Hi as [a [Ea Ha]].
      apply in_map_iff in Hi' as [b [Eb Hb]].
      apply number_rows_ids in Ha as [j [Hj Ej]].
      apply number_partitions_ids in Hb as [q [j' [Hq [Hj' Ej']]]];
        [|exact Hrest].
      rewrite <- Ea, Ej, Ej' in Eb.
      apply monotonically_increasing_id_inj in Eb; lia.
Qed.

Lemma id_capacity_map {A B : Type} (f : list A -> list B)
  (df : list (list A)) :
  (forall l, List.length (f l) = List.length l) ->
  id_capacity df -> id_capacity (map f df).
Proof.
  intros Hf [Hn Hall]; split.
  - now rewrite length_map.
  - apply Forall_map. eapply Forall_impl; [|exact Hall].
    intros part H; simpl in *. now rewrite Hf.
Qed.

(** Within capacity, the ids given to the rows of [log_raw] are pairwise
    distinct. *)
Lemma log_raw_view_ids_NoDup (log : list (list RawLog.t)) :
  id_capacity (next_song_rows log) ->
  NoDup (map LogRaw.songplay_id (log_raw_view log)).
Proof.
  intros Hcap.
  apply (id_capacity_map (map with_start_time)) in Hcap;
    [|intros; apply length_map].
  destruct Hcap as [Hn Hall].
  unfold log_raw_view, with_songplay_id.
  apply number_partitions_NoDup; [lia|lia|exact Hall].
Qed.

Lemma number_rows_content (p c : Z) (part : list (RawLog.t * option Z)) :
  map (fun a => (LogRaw.row a, LogRaw.start_time a)) (number_rows p c part)
  = part.
Proof.
  revert c; induction part as [|[r st] part IH]; intros c; simpl;
    [reflexivity|]. now rewrite IH.
Qed.

Lemma number_partitions_content (p : Z)
  (df : list (list (RawLog.t * option Z))) :
  map (fun a => (LogRaw.row a, LogRaw.start_time a))
    (List.concat (number_partitions p df))
  = List.concat df.
Proof.
  revert p; induction df as [|part df IH]; intros p; simpl; [reflexivity|].
  now rewrite map_app, number_rows_content, IH.
Qed.

(** The rows of [log_raw] are the song plays of the log, each with its
    start time. *)
Lemma log_raw_view_content (log : list (list RawLog.t)) :
  map (fun a => (LogRaw.row a, LogRaw.start_time a)) (log_raw_view log)
  = map with_start_time (filter is_next_song (List.concat log)).
Proof.
  unfold log_raw_view, with_songplay_id.
  rewrite number_partitions_content, <- next_song_rows_concat.
  now rewrite concat_map.
Qed.

Lemma log_raw_view_length (log : list (list RawLog.t)) :
  List.length (log_raw_view log)
  = List.length (filter is_next_song (List.concat log)).
Proof.
  rewrite <- (length_map (fun a => (LogRaw.row a, LogRaw.start_time a))).
  now rewrite log_raw_view_content, length_map.
Qed.

Lemma log_raw_view_of_record (log : list (list RawLog.t)) (r : RawLog.t) :
  In r (List.concat log) -> is_next_song r = true ->
  exists a, In a (log_raw_view log) /\ LogRaw.row a = r /\
            LogRaw.start_time a = get_timestamp (RawLog.ts r).
Proof.
  intros Hin Hp.
  assert (H : In (with_start_time r)
                (map (fun a => (LogRaw.row a, LogRaw.start_time a))
                   (log_raw_view log))).
  { rewrite log_raw_view_content. apply in_map, filter_In; auto. }
  apply in_map_iff in H as [a [E Ha]].
  exists a; split; [exact Ha|]. unfold with_start_time in E.
  injection E as E1 E2; auto.
Qed.

(** ** Song plays *)

Section JoinFacts.
Context {A B : Type}.
Variable on : A -> B -> bool.

Lemma left_join_In (l : list A) (r : list B) (a : A) (ob : option B) :
  In (a, ob) (Spark.left_join on l r) <->
  In a l /\ match ob with
            | Some b => In b r /\ on a b = true
            | None => forall b, In b r -> on a b = false
            end.
Proof.
  unfold Spark.left_join. rewrite in_flat_map. split.
  - intros [x [Hx H]].
    destruct (filter (on x) r) as [|m ms] eqn:Hf.
    + destruct H as [E|[]]. injection E as -> <-. split; [exact Hx|].
      intros b Hb. destruct (on a b) eqn:Hab; [|reflexivity].
      assert (Hin : In b (filter (on a) r)) by (apply filter_In; auto).
      rewrite Hf in Hin; destruct Hin.
    + apply in_map_iff in H as [b [E Hb]]. injection E as -> <-.
      split; [exact Hx|]. rewrite <- Hf in Hb. now apply filter_In in Hb.
  - intros [Ha H]. exists a; split; [exact Ha|].
    destruct ob as [b|].
    + assert (Hin : In b (filter (on a) r)) by (now apply filter_In).
      destruct (filter (on a) r) as [|m ms]; [destruct Hin|].
      apply in_map_iff; exists b; auto.
    + destruct (filter (on a) r) as [|m ms] eqn:Hf; [now left|].
      assert (Hin : In m (filter (on a) r)) by (rewrite Hf; now left).
      apply filter_In in Hin as [Hm Hon]. rewrite (H m Hm) in Hon.
      discriminate.
Qed.

(** A left join never loses a left row. *)
Lemma left_join_keeps (l : list A) (r : list B) (a : A) :
  In a l -> exists ob, In (a, ob) (Spark.left_join on l r).
Proof.
  intros Ha. destruct (filter (on a) r) as [|m ms] eqn:Hf.
  - exists None. apply left_join_In; split; [exact Ha|].
    intros b Hb. destruct (on a b) eqn:Hab; [|reflexivity].
    assert (Hin : In b (filter (on a) r)) by (apply filter_In; auto).
    rewrite Hf in Hin; destruct Hin.
  - exists (Some m). apply left_join_In; split; [exact Ha|].
    assert (Hin : In m (filter (on a) r)) by (rewrite Hf; now left).
    now apply filter_In in Hin.
Qed.
End JoinFacts.

Lemma songplays_table_In (log_raw : list LogRaw.t) (songs : list Song.t)
  (artists : list Artist.t) (row : SongPlay.t) :
  In row (songplays_table log_raw songs artists) <->
  exists a b c,
    In a log_raw /\
    match b with
    | Some s => In s songs /\ on_title a s = true
    | None => forall s, In s songs -> on_title a s = false
    end /\
    match c with
    | Some x => In x artists /\ on_name (a, b) x = true
    | None => forall x, In x artists -> on_name (a, b) x = false
    end /\
    row = select_songplay (a, b, c).
Proof.
  unfold songplays_table. rewrite dropDuplicates_In, in_map_iff. split.
  - intros [[[a b] c] [<- H]].
    apply left_join_In in H as [Hab Hc].
    apply left_join_In in Hab as [Ha Hb].
    exists a, b, c; auto.
  - intros [a [b [c [Ha [Hb [Hc ->]]]]]].
    exists (a, b, c); split; [reflexivity|].
    apply left_join_In; split; [|exact Hc].
    apply left_join_In; split; auto.
Qed.

(** Every row of [log_raw] reaches the song-play table, with null keys on
    the sides that found no match. *)
Lemma songplays_table_keeps (log_raw : list LogRaw.t) (songs : list Song.t)
  (artists : list Artist.t) (a : LogRaw.t) :
  In a log_raw ->
  exists b c,
    In (select_songplay (a, b, c)) (songplays_table log_raw songs artists) /\
    ((forall s, In s songs -> on_title a s = false) -> b = None) /\
    ((forall x, In x artists -> on_name (a, b) x = false) -> c = None).
Proof.
  intros Ha.
  destruct (left_join_keeps on_title log_raw songs a Ha) as [b Hb].
  destruct (left_join_keeps on_name _ artists (a, b) Hb) as [c Hc].
  exists b, c. split; [|split].
  - unfold songplays_table. apply dropDuplicates_In, in_map_iff.
    exists (a, b, c); auto.
  - intros Hmiss. apply left_join_In in Hb as [_ Hb].
    destruct b as [s|]; [|reflexivity].
    destruct Hb as [Hs Hon]. rewrite (Hmiss s Hs) in Hon; discriminate.
  - intros Hmiss. apply left_join_In in Hc as [_ Hc].
    destruct c as [x|]; [|reflexivity].
    destruct Hc as [Hx Hon]. rewrite (Hmiss x Hx) in Hon; discriminate.
Qed.

Lemma NoDup_map_In_inj {A B : Type} (f : A -> B) (l : list A) (x y : A) :
  NoDup (map f l) -> In x l -> In y l -> f x = f y -> x = y.
Proof.
  induction l as [|z l IH]; simpl; intros Hnd Hx Hy E; [destruct Hx|].
  inversion Hnd as [|? ? Hz Hl]; subst.
  destruct Hx as [->|Hx], Hy as [->|Hy]; auto.
  - exfalso; apply Hz. rewrite E. now apply in_map.
  - exfalso; apply Hz. rewrite <- E. now apply in_map.
Qed.

(** C2, as stated, fails: the single play of [fanout_log] matches the two
    songs titled "Intro" of [fanout_catalog], and the two resulting rows
    carry the same [songplay_id]. *)
Lemma songplay_id_repeats_on_fanout :
  ~ NoDup (map SongPlay.songplay_id
             (Tables.songplays (snd (main fanout_catalog fanout_log)))).
Proof.
  vm_compute. intros H. inversion H as [|? ? Hn _]. apply Hn. now left.
Qed.

Lemma songplays_fanout_rows (log_raw : list LogRaw.t) (songs : list Song.t)
  (artists : list Artist.t) (a : LogRaw.t) (s : Song.t) :
  In a log_raw -> In s songs -> on_title a s = true ->
  exists row, In row (songplays_table log_raw songs artists) /\
              SongPlay.songplay_id row = LogRaw.songplay_id a /\
              SongPlay.song_id row = Song.song_id s.
Proof.
  intros Ha Hs Hon.
  assert (Hab : In (a, Some s) (Spark.left_join on_title log_raw songs))
    by (apply left_join_In; auto).
  destruct (left_join_keeps on_name _ artists (a, Some s) Hab) as [c Hc].
  exists (select_songplay (a, Some s, c)). split; [|split; reflexivity].
  unfold songplays_table. apply dropDuplicates_In, in_map_iff.
  exists (a, Some s, c); auto.
Qed.

(** C2 (amended): within the documented id capacity, every activity record
    with [page = 'NextSong'] receives a [songplay_id] of its own, and the
    rows of the song-play table are pairwise distinct as whole rows.  The
    id belongs to the activity record, not to the joined row: the table
    holds one row for every matching (song, artist) combination of every
    [log_raw] row, each carrying the [songplay_id] of that [log_raw] row,
    and nothing else; so when a record's title matches two songs, both
    resulting rows carry the record's [songplay_id].  Two rows that carry
    the same [songplay_id] stem from the same activity record: they agree on
    every column taken from it and can differ only in [song_id] and
    [artist_id]. *)
Theorem songplay_id_identifies_record (log : list (list RawLog.t))
  (song_df : list Song.t) (artists_df : list Artist.t) :
  id_capacity (next_song_rows log) ->
  NoDup (map LogRaw.songplay_id (log_raw_view log)) /\
  NoDup (Tables.songplays (process_log_data log song_df artists_df)) /\
  (forall row,
     In row (Tables.songplays (process_log_data log song_df artists_df)) <->
     exists a b c,
       In a (log_raw_view log) /\
       match b with
       | Some s => In s song_df /\ on_title a s = true
       | None => forall s, In s song_df -> on_title a s = false
       end /\
       match c with
       | Some x => In x artists_df /\ on_name (a, b) x = true
       | None => forall x, In x artists_df -> on_name (a, b) x = false
       end /\
       row = select_songplay (a, b, c) /\
       SongPlay.songplay_id row = LogRaw.songplay_id a) /\
  (forall a s1 s2,
     In a (log_raw_view log) ->
     In s1 song_df -> on_title a s1 = true ->
     In s2 song_df -> on_title a s2 = true ->
     exists row1 row2,
       In row1 (Tables.songplays (process_log_data log song_df artists_df)) /\
       In row2 (Tables.songplays (process_log_data log song_df artists_df)) /\
       SongPlay.songplay_id row1 = LogRaw.songplay_id a /\
       SongPlay.songplay_id row2 = LogRaw.songplay_id a /\
       SongPlay.song_id row1 = Song.song_id s1 /\
       SongPlay.song_id row2 = Song.song_id s2) /\
  (forall p q,
     In p (Tables.songplays (process_log_data log song_df artists_df)) ->
     In q (Tables.songplays (process_log_data log song_df artists_df)) ->
     SongPlay.songplay_id p = SongPlay.songplay_id q ->
     (exists a b c b' c',
        In a (log_raw_view log) /\
        p = select_songplay (a, b, c) /\ q = select_songplay (a, b', c')) /\
     SongPlay.start_time p = SongPlay.start_time q /\
     SongPlay.user_id p = SongPlay.user_id q /\
     SongPlay.session_id p = SongPlay.session_id q /\
     SongPlay.location p = SongPlay.location q /\
     SongPlay.level p = SongPlay.level q /\
     SongPlay.user_agent p = SongPlay.user_agent q).
Proof.
  intros Hcap. pose proof (log_raw_view_ids_NoDup log Hcap) as Hids.
  split; [exact Hids|]. split; [apply dropDuplicates_NoDup|].
  simpl. split; [|split].
  - intros row. rewrite songplays_table_In. split.
    + intros [a [b [c [Ha [Hb [Hc ->]]]]]]. exists a, b, c. auto.
    + intros [a [b [c [Ha [Hb [Hc [-> _]]]]]]]. exists a, b, c. auto.
  - intros a s1 s2 Ha Hs1 Hon1 Hs2 Hon2.
    destruct (songplays_fanout_rows (log_raw_view log) song_df artists_df
                a s1 Ha Hs1 Hon1) as [row1 [H1 [E1 K1]]].
    destruct (songplays_fanout_rows (log_raw_view log) song_df artists_df
                a s2 Ha Hs2 Hon2) as [row2 [H2 [E2 K2]]].
    exists row1, row2. auto 10.
  - intros p q Hp Hq E.
    apply songplays_table_In in Hp as [a [b [c [Ha [_ [_ ->]]]]]].
    apply songplays_table_In in Hq as [a' [b' [c' [Ha' [_ [_ ->]]]]]].
    simpl in E.
    assert (a = a') by (eapply NoDup_map_In_inj; eauto). subst a'.
    split; [exists a, b, c, b', c'; auto|].
    simpl; repeat split.
Qed.

Lemma songplay_id_identifies_record_sample :
  id_capacity (next_song_rows fanout_log) /\
  exists row1 row2,
    In row1 (Tables.songplays
               (process_log_data fanout_log (songs_table fanout_catalog)
                  (artists_table fanout_catalog))) /\
    In row2 (Tables.songplays
               (process_log_data fanout_log (songs_table fanout_catalog)
                  (artists_table fanout_catalog))) /\
    SongPlay.songplay_id row1 = 0 /\
    SongPlay.songplay_id row2 = 0 /\
    SongPlay.song_id row1 = Some "S1"%string /\
    SongPlay.song_id row2 = Some "S2"%string.
Proof.
  assert (Hcap : id_capacity (next_song_rows fanout_log)).
  { split; [vm_compute; discriminate|].
    repeat constructor; vm_compute; discriminate. }
  split; [exact Hcap|].
  destruct (songplay_id_identifies_record fanout_log
              (songs_table fanout_catalog) (artists_table fanout_catalog) Hcap)
    as [_ [_ [_ [Hfan _]]]].
  apply (Hfan (LogRaw.mk november_play (Some 1541105830796000) 0)
              (select_song (nth 0 fanout_catalog intro_record))
              (select_song (nth 1 fanout_catalog intro_record))).
  - vm_compute; left; reflexivity.
  - vm_compute; left; reflexivity.
  - reflexivity.
  - vm_compute; right; left; reflexivity.
  - reflexivity.
Defined.

(** C4: every activity record with [page = 'NextSong'] has a row in the
    song-play table that carries its columns; when no song title (resp. no
    artist name) matches, that row has a null [song_id] (resp. [artist_id]).
    Within the documented id capacity the table has at least as many rows as
    there are such records. *)
Theorem songplays_outer_join_complete (log : list (list RawLog.t))
  (song_df : list Song.t) (artists_df : list Artist.t) :
  id_capacity (next_song_rows log) ->
  (forall r, In r (List.concat log) -> is_next_song r = true ->
     exists row,
       In row (Tables.songplays (process_log_data log song_df artists_df)) /\
       SongPlay.start_time row = get_timestamp (RawLog.ts r) /\
       SongPlay.user_id row = RawLog.userId r /\
       SongPlay.session_id row = RawLog.sessionId r /\
       SongPlay.location row = RawLog.location r /\
       SongPlay.level row = RawLog.level r /\
       SongPlay.user_agent row = RawLog.userAgent r /\
       ((forall s, In s song_df ->
                   sql_eq (RawLog.song r) (Song.title s) = false) ->
        SongPlay.song_id row = None) /\
       ((forall x, In x artists_df ->
                   sql_eq (RawLog.artist r) (Artist.name x) = false) ->
        SongPlay.artist_id row = None))
  /\
  (List.length (filter is_next_song (List.concat log))
   <= List.length (Tables.songplays (process_log_data log song_df artists_df)))%nat.
Proof.
  intros Hcap. split.
  - intros r Hr Hp.
    destruct (log_raw_view_of_record log r Hr Hp) as [a [Ha [Erow Est]]].
    destruct (songplays_table_keeps (log_raw_view log) song_df artists_df a Ha)
      as [b [c [Hin [Hb Hc]]]].
    exists (select_songplay (a, b, c)). split; [exact Hin|].
    simpl. rewrite Erow. repeat split; auto.
    + intros Hmiss. rewrite Hb; [reflexivity|].
      intros s Hs. unfold on_title. rewrite Erow. now apply Hmiss.
    + intros Hmiss. rewrite Hc; [reflexivity|].
      intros x Hx. unfold on_name; simpl. rewrite Erow. now apply Hmiss.
  - rewrite <- log_raw_view_length.
    rewrite <- (length_map LogRaw.songplay_id).
    rewrite <- (length_map SongPlay.songplay_id
                  (Tables.songplays (process_log_data log song_df artists_df))).
    apply NoDup_incl_length; [now apply log_raw_view_ids_NoDup|].
    intros i Hi. apply in_map_iff in Hi as [a [<- Ha]].
    destruct (songplays_table_keeps (log_raw_view log) song_df artists_df a Ha)
      as [b [c [Hin _]]].
    apply in_map_iff. exists (select_songplay (a, b, c)); split;
      [reflexivity|exact Hin].
Qed.

Lemma songplays_outer_join_complete_sample :
  id_capacity (next_song_rows fanout_log) /\
  (List.length (filter is_next_song (List.concat fanout_log))
   <= List.length (Tables.songplays (process_log_data fanout_log [] [])))%nat.
Proof.
  assert (Hcap : id_capacity (next_song_rows fanout_log)).
  { split; [vm_compute; discriminate|].
    repeat constructor; vm_compute; discriminate. }
  split; [exact Hcap|].
  exact (proj2 (songplays_outer_join_complete fanout_log [] [] Hcap)).
Defined.

(** ** Time table *)

Lemma get_timestamp_Some (x : option Z) (t : Z) :
  get_timestamp x = Some t <-> exists v, x = Some v /\ v <> 0 /\ t = v * 1000.
Proof.
  unfold get_timestamp, truthy, to_datetime_ms. split.
  - destruct x as [v|]; [|discriminate].
    destruct (Z.eqb_spec v 0); simpl; [discriminate|].
    intros E; injection E as <-. eauto.
  - intros [v [-> [Hv ->]]].
    destruct (Z.eqb_spec v 0); simpl; [contradiction|reflexivity].
Qed.

(** The rows of the time table: one for each start time derived from a song
    play whose [ts] is neither null nor zero. *)
Lemma time_table_In (log : list (list RawLog.t)) (song_df : list Song.t)
  (artists_df : list Artist.t) (row : Time.t) :
  In row (Tables.time (process_log_data log song_df artists_df)) <->
  exists r v, In r (List.concat log) /\ is_next_song r = true /\
              RawLog.ts r = Some v /\ v <> 0 /\
              row = select_time (r, Some (v * 1000)).
Proof.
  simpl. unfold time_table.
  rewrite dropDuplicates_In, in_map_iff, next_song_rows_concat. split.
  - intros [[r st] [<- H]]. apply filter_In in H as [H Hst].
    apply in_map_iff in H as [r' [E Hr']]. unfold with_start_time in E.
    injection E as -> <-. apply filter_In in Hr' as [Hin Hp].
    simpl in Hst. destruct (get_timestamp (RawLog.ts r)) as [t|] eqn:Et;
      [|discriminate].
    apply get_timestamp_Some in Et as [v [Ev [Hv ->]]].
    exists r, v; repeat split; auto.
  - intros [r [v [Hin [Hp [Ev [Hv ->]]]]]].
    exists (r, Some (v * 1000)); split; [reflexivity|].
    apply filter_In; split; [|reflexivity].
    apply in_map_iff; exists r; split; [|apply filter_In; auto].
    unfold with_start_time. f_equal.
    apply get_timestamp_Some; eauto.
Qed.

(** Duplicate timestamps collapse: no two rows of the time table share a
    start time. *)
Lemma time_table_start_times_NoDup (log_raw : list (RawLog.t * option Z)) :
  NoDup (map Time.start_time (time_table log_raw)).
Proof.
  unfold time_table.
  assert (Hrows : forall row,
             In row (Spark.dropDuplicates Time.eq_dec
                       (map select_time
                          (filter (fun a => is_not_null (snd a)) log_raw))) ->
             exists a, row = select_time a).
  { intros row H. apply dropDuplicates_In, in_map_iff in H as [a [<- _]].
    now exists a. }
  induction (dropDuplicates_NoDup Time.eq_dec
               (map select_time
                  (filter (fun a => is_not_null (snd a)) log_raw)))
    as [|row rows Hrow _ IH]; simpl; constructor.
  - intros Hin. apply in_map_iff in Hin as [row' [E Hrow']]. apply Hrow.
    destruct (Hrows row (or_introl eq_refl)) as [a ->].
    destruct (Hrows row' (or_intror Hrow')) as [b ->].
    unfold select_time in *; simpl in E. now rewrite <- E.
  - apply IH. intros row' H. apply Hrows. now right.
Qed.

(** C5 fails on the code at [ts = 0]: the UDF tests its argument with
    [if x:], which is false for the integer zero as it is for [None], so a
    song play at the epoch gets a null start time and no row in the time
    table. *)
Theorem time_table_drops_epoch :
  get_timestamp (Some 0) = None /\
  Tables.time (process_log_data epoch_log [] []) = [].
Proof. split; reflexivity. Qed.

(** C7, as stated, fails in the hour: 1541105830796 ms after the epoch is
    20:57:10.796 on 2018-11-01, so the derived row has hour 20, not 21. *)
Lemma november_play_hour_is_not_21 :
  ~ (Time.year (select_time (with_start_time november_play)) = Some 2018 /\
     Time.month (select_time (with_start_time november_play)) = Some 11 /\
     Time.day (select_time (with_start_time november_play)) = Some 1 /\
     Time.hour (select_time (with_start_time november_play)) = Some 21 /\
     Time.weekday (select_time (with_start_time november_play))
     = Some "Thu"%string).
Proof. intros [_ [_ [_ [H _]]]]. vm_compute in H. discriminate H. Qed.

(** C7 (amended): the time row is a fixed function of [ts]; for any activity
    record with [ts = 1541105830796] it has year 2018, month 11, day 1,
    hour 20, and weekday "Thu" (and ISO week 44). *)
Theorem time_row_of_november_ts (r : RawLog.t) :
  RawLog.ts r = Some 1541105830796 ->
  Time.year (select_time (with_start_time r)) = Some 2018 /\
  Time.month (select_time (with_start_time r)) = Some 11 /\
  Time.day (select_time (with_start_time r)) = Some 1 /\
  Time.hour (select_time (with_start_time r)) = Some 20 /\
  Time.weekday (select_time (with_start_time r)) = Some "Thu"%string /\
  Time.week (select_time (with_start_time r)) = Some 44.
Proof.
  intros H. unfold select_time, with_start_time. simpl. rewrite H.
  repeat split; vm_compute; reflexivity.
Qed.

Lemma time_row_of_november_ts_sample :
  RawLog.ts november_play = Some 1541105830796 /\
  Time.hour (select_time (with_start_time november_play)) = Some 20.
Proof.
  split; [reflexivity|].
  exact (proj1 (proj2 (proj2 (proj2
           (time_row_of_november_ts november_play eq_refl))))).
Defined.

(** ** Keys of the produced tables *)

(** C1 (amended): the rows of the song table are pairwise distinct as whole
    rows and have a non-null [song_id]; likewise the artist table and
    [artist_id]; the rows of the user table have pairwise distinct, non-null
    [user_id] values. *)
Theorem table_keys (catalog : list RawSong.t) (log : list (list RawLog.t)) :
  (NoDup (fst (fst (main catalog log))) /\
   forall s, In s (fst (fst (main catalog log))) -> Song.song_id s <> None)
  /\
  (NoDup (snd (fst (main catalog log))) /\
   forall a, In a (snd (fst (main catalog log))) -> Artist.artist_id a <> None)
  /\
  (NoDup (map User.user_id (Tables.users (snd (main catalog log)))) /\
   forall row, In row (Tables.users (snd (main catalog log))) ->
               User.user_id row <> None).
Proof.
  simpl. repeat split.
  - apply songs_table_NoDup.
  - intros s Hs. apply songs_table_In in Hs as [r [_ [-> Hn]]]. exact Hn.
  - apply artists_table_NoDup.
  - intros a Ha. apply artists_table_In in Ha as [r [_ [-> Hn]]]. exact Hn.
  - apply users_table_keys_NoDup.
  - intros row Hrow. apply users_table_In in Hrow as [r [_ [Hn [_ ->]]]].
    exact Hn.
Qed.

(** ** Further properties of the activity branch *)

Lemma log_raw_view_sound (log : list (list RawLog.t)) (a : LogRaw.t) :
  In a (log_raw_view log) ->
  In (LogRaw.row a) (List.concat log) /\
  is_next_song (LogRaw.row a) = true /\
  LogRaw.start_time a = get_timestamp (RawLog.ts (LogRaw.row a)).
Proof.
  intros Ha.
  assert (H : In (LogRaw.row a, LogRaw.start_time a)
                (map with_start_time (filter is_next_song (List.concat log)))).
  { rewrite <- log_raw_view_content.
    apply (in_map (fun a => (LogRaw.row a, LogRaw.start_time a))), Ha. }
  apply in_map_iff in H as [r [E Hr]]. unfold with_start_time in E.
  injection E as -> <-. apply filter_In in Hr as [Hin Hp]. auto.
Qed.

(** Records of other pages are invisible to the job: putting a record whose
    page is not 'NextSong' (or is null) anywhere into any partition of the
    log changes none of the three tables, ids included. *)
Theorem other_pages_are_ignored
  (pre post : list (list RawLog.t)) (p1 p2 : list RawLog.t) (r : RawLog.t)
  (song_df : list Song.t) (artists_df : list Artist.t) :
  is_next_song r = false ->
  process_log_data (pre ++ (p1 ++ r :: p2) :: post) song_df artists_df
  = process_log_data (pre ++ (p1 ++ p2) :: post) song_df artists_df.
Proof.
  intros Hr.
  assert (E : next_song_rows (pre ++ (p1 ++ r :: p2) :: post)
              = next_song_rows (pre ++ (p1 ++ p2) :: post)).
  { unfold next_song_rows. rewrite !map_app. simpl.
    rewrite !filter_app. simpl. now rewrite Hr. }
  unfold process_log_data, log_raw_view. now rewrite E.
Qed.

Lemma other_pages_are_ignored_sample :
  is_next_song login_visit = false /\
  process_log_data ([] ++ ([november_play] ++ login_visit :: []) :: []) [] []
  = process_log_data ([] ++ ([november_play] ++ []) :: []) [] [].
Proof.
  split; [reflexivity|].
  exact (other_pages_are_ignored [] [] [november_play] [] login_visit [] []
           eq_refl).
Defined.

(** Null never matches: within the id capacity, every song play row that
    carries the id of a [log_raw] row whose [song] is null has a null
    [song_id], whatever the song table holds; likewise [artist] and
    [artist_id]. *)
Theorem null_name_never_matches (log : list (list RawLog.t))
  (song_df : list Song.t) (artists_df : list Artist.t)
  (a : LogRaw.t) (row : SongPlay.t) :
  id_capacity (next_song_rows log) ->
  In a (log_raw_view log) ->
  In row (Tables.songplays (process_log_data log song_df artists_df)) ->
  SongPlay.songplay_id row = LogRaw.songplay_id a ->
  (RawLog.song (LogRaw.row a) = None -> SongPlay.song_id row = None) /\
  (RawLog.artist (LogRaw.row a) = None -> SongPlay.artist_id row = None).
Proof.
  intros Hcap Ha Hrow E. simpl in Hrow.
  apply songplays_table_In in Hrow as [a' [b [c [Ha' [Hb [Hc ->]]]]]].
  simpl in E.
  assert (a' = a).
  { apply (NoDup_map_In_inj LogRaw.songplay_id (log_raw_view log)); auto.
    now apply log_raw_view_ids_NoDup. }
  subst a'. simpl. split; intros Hnull.
  - destruct b as [s|]; [|reflexivity]. destruct Hb as [_ Hon].
    unfold on_title in Hon. rewrite Hnull in Hon. discriminate Hon.
  - destruct c as [x|]; [|reflexivity]. destruct Hc as [_ Hon].
    unfold on_name in Hon. simpl in Hon. rewrite Hnull in Hon.
    discriminate Hon.
Qed.

Lemma songplays_row_origin (log : list (list RawLog.t))
  (song_df : list Song.t) (artists_df : list Artist.t) (row : SongPlay.t) :
  In row (Tables.songplays (process_log_data log song_df artists_df)) ->
  exists r,
    In r (List.concat log) /\ is_next_song r = true /\
    SongPlay.start_time row = get_timestamp (RawLog.ts r) /\
    SongPlay.user_id row = RawLog.userId r /\
    SongPlay.session_id row = RawLog.sessionId r /\
    SongPlay.location row = RawLog.location r /\
    SongPlay.level row = RawLog.level r /\
    SongPlay.user_agent row = RawLog.userAgent r /\
    (forall k, SongPlay.song_id row = Some k ->
       exists s, In s song_df /\ Song.song_id s = Some k /\
                 Song.title s <> None /\ Song.title s = RawLog.song r) /\
    (forall k, SongPlay.artist_id row = Some k ->
       exists x, In x artists_df /\ Artist.artist_id x = Some k /\
                 Artist.name x <> None /\ Artist.name x = RawLog.artist r).
Proof.
  simpl. intros Hrow.
  apply songplays_table_In in Hrow as [a [b [c [Ha [Hb [Hc ->]]]]]].
  destruct (log_raw_view_sound log a Ha) as [Hin [Hp Hst]].
  exists (LogRaw.row a). simpl. repeat split; auto.
  - intros k Hk. destruct b as [s|]; [|discriminate].
    destruct Hb as [Hs Hon]. exists s. unfold on_title, sql_eq in Hon.
    destruct (RawLog.song (LogRaw.row a)) as [t|]; [|discriminate].
    destruct (Song.title s) as [t'|]; [|discriminate].
    apply String.eqb_eq in Hon. subst. repeat split; auto. discriminate.
  - intros k Hk. destruct c as [x|]; [|discriminate].
    destruct Hc as [Hx Hon]. exists x. unfold on_name, sql_eq in Hon.
    simpl in Hon.
    destruct (RawLog.artist (LogRaw.row a)) as [t|]; [|discriminate].
    destruct (Artist.name x) as [t'|]; [|discriminate].
    apply String.eqb_eq in Hon. subst. repeat split; auto. discriminate.
Qed.

(** No song play row without a song play: every row of the table carries
    the columns of some record of the log with [page = 'NextSong'], and a
    non-null [song_id] (resp. [artist_id]) is the key of a song (resp.
    artist) whose title (resp. name) is exactly the record's. *)
Theorem songplays_rows_sound (log : list (list RawLog.t))
  (song_df : list Song.t) (artists_df : list Artist.t) (row : SongPlay.t) :
  In row (Tables.songplays (process_log_data log song_df artists_df)) ->
  exists r,
    In r (List.concat log) /\ is_next_song r = true /\
    SongPlay.start_time row = get_timestamp (RawLog.ts r) /\
    SongPlay.user_id row = RawLog.userId r /\
    SongPlay.session_id row = RawLog.sessionId r /\
    SongPlay.location row = RawLog.location r /\
    SongPlay.level row = RawLog.level r /\
    SongPlay.user_agent row = RawLog.userAgent r /\
    (forall k, SongPlay.song_id row = Some k ->
       exists s, In s song_df /\ Song.song_id s = Some k /\
                 Song.title s <> None /\ Song.title s = RawLog.song r) /\
    (forall k, SongPlay.artist_id row = Some k ->
       exists x, In x artists_df /\ Artist.artist_id x = Some k /\
                 Artist.name x <> None /\ Artist.name x = RawLog.artist r).
Proof. apply songplays_row_origin. Qed.

Lemma songplays_rows_sound_sample :
  In fanout_row
     (Tables.songplays
        (process_log_data fanout_log (songs_table fanout_catalog)
           (artists_table fanout_catalog))) /\
  exists r,
    In r (List.concat fanout_log) /\ is_next_song r = true /\
    SongPlay.start_time fanout_row = get_timestamp (RawLog.ts r) /\
    SongPlay.user_id fanout_row = RawLog.userId r.
Proof.
  assert (H : In fanout_row
                (Tables.songplays
                   (process_log_data fanout_log (songs_table fanout_catalog)
                      (artists_table fanout_catalog))))
    by (vm_compute; left; reflexivity).
  split; [exact H|].
  destruct (songplays_rows_sound fanout_log (songs_table fanout_catalog)
              (artists_table fanout_catalog) fanout_row H)
    as [r [H1 [H2 [H3 [H4 _]]]]].
  exists r; auto.
Defined.

Lemma null_name_never_matches_sample :
  id_capacity (next_song_rows fanout_log) /\
  In (LogRaw.mk november_play (Some 1541105830796000) 0)
     (log_raw_view fanout_log) /\
  In fanout_row
     (Tables.songplays
        (process_log_data fanout_log (songs_table fanout_catalog)
           (artists_table fanout_catalog))) /\
  (RawLog.artist november_play = None -> SongPlay.artist_id fanout_row = None).
Proof.
  assert (Hcap : id_capacity (next_song_rows fanout_log)).
  { split; [vm_compute; discriminate|].
    repeat constructor; vm_compute; discriminate. }
  assert (Ha : In (LogRaw.mk november_play (Some 1541105830796000) 0)
                  (log_raw_view fanout_log))
    by (vm_compute; left; reflexivity).
  assert (H : In fanout_row
                (Tables.songplays
                   (process_log_data fanout_log (songs_table fanout_catalog)
                      (artists_table fanout_catalog))))
    by (vm_compute; left; reflexivity).
  split; [exact Hcap|split; [exact Ha|split; [exact H|]]].
  exact (proj2 (null_name_never_matches fanout_log
                  (songs_table fanout_catalog) (artists_table fanout_catalog)
                  _ fanout_row Hcap Ha H eq_refl)).
Defined.

(** Referential integrity of the star schema built by [main]: every
    non-null [song_id], [artist_id], [user_id] and [start_time] of a song
    play row is the key of a row of the song, artist, user and time table
    respectively. *)
Theorem fact_keys_resolve (catalog : list RawSong.t)
  (log : list (list RawLog.t)) (row : SongPlay.t) :
  In row (Tables.songplays (snd (main catalog log))) ->
  (forall k, SongPlay.song_id row = Some k ->
     exists s, In s (fst (fst (main catalog log))) /\
               Song.song_id s = Some k) /\
  (forall k, SongPlay.artist_id row = Some k ->
     exists x, In x (snd (fst (main catalog log))) /\
               Artist.artist_id x = Some k) /\
  (forall u, SongPlay.user_id row = Some u ->
     exists urow, In urow (Tables.users (snd (main catalog log))) /\
                  User.user_id urow = Some u) /\
  (forall t, SongPlay.start_time row = Some t ->
     exists trow, In trow (Tables.time (snd (main catalog log))) /\
                  Time.start_time trow = Some t).
Proof.
  intros Hrow.
  change (In row (Tables.songplays
                    (process_log_data log (songs_table catalog)
                       (artists_table catalog)))) in Hrow.
  destruct (songplays_row_origin _ _ _ _ Hrow)
    as [r [Hin [Hp [Hst [Hu [_ [_ [_ [_ [Hs Ha]]]]]]]]]].
  change (fst (fst (main catalog log))) with (songs_table catalog).
  change (snd (fst (main catalog log))) with (artists_table catalog).
  change (snd (main catalog log))
    with (process_log_data log (songs_table catalog) (artists_table catalog)).
  repeat split.
  - intros k Hk. destruct (Hs k Hk) as [s [H1 [H2 _]]]. eauto.
  - intros k Hk. destruct (Ha k Hk) as [x [H1 [H2 _]]]. eauto.
  - intros u Hk. rewrite Hu in Hk. simpl. rewrite next_song_rows_concat.
    destruct (users_table_latest (filter is_next_song (List.concat log)) u r)
      as [r0 [_ [Hk0 Hrows]]]; [apply filter_In; auto|exact Hk|].
    exists (user_of r0). split; [|exact Hk0].
    assert (Hm : In (user_of r0)
                   (rows_of_user u
                      (users_table (filter is_next_song (List.concat log)))))
      by (rewrite Hrows; now left).
    unfold rows_of_user in Hm. now apply filter_In in Hm.
  - intros t Ht. rewrite Hst in Ht.
    pose proof Ht as Hv. apply get_timestamp_Some in Hv as [v [Ev [Hv ->]]].
    exists (select_time (r, Some (v * 1000))). split; [|reflexivity].
    apply time_table_In. exists r, v; auto.
Qed.

Lemma fact_keys_resolve_sample :
  In fanout_row (Tables.songplays (snd (main fanout_catalog fanout_log))) /\
  (exists s, In s (fst (fst (main fanout_catalog fanout_log))) /\
             Song.song_id s = Some "S1"%string) /\
  (exists urow, In urow (Tables.users (snd (main fanout_catalog fanout_log))) /\
                User.user_id urow = Some "u"%string).
Proof.
  assert (H : In fanout_row
                (Tables.songplays (snd (main fanout_catalog fanout_log))))
    by (vm_compute; left; reflexivity).
  split; [exact H|].
  destruct (fact_keys_resolve fanout_catalog fanout_log fanout_row H)
    as [Hs [_ [Hu _]]].
  split; [exact (Hs "S1"%string eq_refl)|exact (Hu "u"%string eq_refl)].
Defined.

(** ** Further properties of the time table *)

Lemma distinct_from_map {A B : Type}
  (decA : forall x y : A, {x = y} + {x <> y})
  (decB : forall x y : B, {x = y} + {x <> y})
  (f : A -> B) (seen l : list A) :
  (forall x y, In x (seen ++ l) -> In y (seen ++ l) -> f x = f y -> x = y) ->
  map f (Spark.distinct_from decA seen l)
  = Spark.distinct_from decB (map f seen) (map f l).
Proof.
  revert seen; induction l as [|y t IH]; intros seen Hinj; simpl;
    [reflexivity|].
  assert (Hstep : forall x z, In x ((y :: seen) ++ t) ->
                              In z ((y :: seen) ++ t) -> f x = f z -> x = z).
  { intros x z Hx Hz. apply Hinj; rewrite in_app_iff in *; simpl in *; tauto. }
  destruct (in_dec decA y seen) as [Hy|Hy],
           (in_dec decB (f y) (map f seen)) as [Hfy|Hfy].
  - apply IH. intros x z Hx Hz. apply Hinj; rewrite in_app_iff in *;
      simpl; tauto.
  - exfalso. apply Hfy. now apply in_map.
  - exfalso. apply in_map_iff in Hfy as [x [E Hx]]. apply Hy.
    assert (x = y); [|now subst].
    apply Hinj; auto; rewrite in_app_iff; simpl; auto.
  - simpl. f_equal. apply (IH (y :: seen) Hstep).
Qed.

Lemma start_times_of_rows (df : list RawLog.t) :
  map Time.start_time
    (map select_time
       (filter (fun a => is_not_null (snd a)) (map with_start_time df)))
  = filter is_not_null (map (fun r => get_timestamp (RawLog.ts r)) df).
Proof.
  induction df as [|r df IH]; [reflexivity|].
  cbn [map filter with_start_time snd].
  destruct (get_timestamp (RawLog.ts r)) as [t|] eqn:E;
    cbn [is_not_null map filter]; [|exact IH].
  rewrite IH. f_equal. exact E.
Qed.

(** The key column of the time table lists, each once and in order of first
    appearance, the non-null start times derived from the song plays: the
    table has exactly one row per distinct start time. *)
Theorem time_table_start_times (log : list (list RawLog.t))
  (song_df : list Song.t) (artists_df : list Artist.t) :
  map Time.start_time (Tables.time (process_log_data log song_df artists_df))
  = Spark.dropDuplicates oZ_eq_dec
      (filter is_not_null
         (map (fun r => get_timestamp (RawLog.ts r))
            (filter is_next_song (List.concat log)))).
Proof.
  simpl. unfold time_table, Spark.dropDuplicates.
  rewrite next_song_rows_concat, <- start_times_of_rows.
  apply (distinct_from_map Time.eq_dec oZ_eq_dec Time.start_time []).
  simpl. intros x y Hx Hy E.
  apply in_map_iff in Hx as [a [<- _]].
  apply in_map_iff in Hy as [b [<- _]].
  unfold select_time in *. simpl in E. now rewrite E.
Qed.

Lemma time_table_perm (df df' : list (RawLog.t * option Z)) :
  Permutation df df' -> Permutation (time_table df) (time_table df').
Proof.
  intros HP. apply NoDup_Permutation.
  - apply dropDuplicates_NoDup.
  - apply dropDuplicates_NoDup.
  - intros row. unfold time_table. rewrite !dropDuplicates_In, !in_map_iff.
    split; intros [a [E Ha]]; exists a; (split; [exact E|]);
      apply filter_In in Ha as [Ha Hn]; apply filter_In; (split; [|exact Hn]).
    + now apply Permutation_in with df.
    + apply Permutation_in with df'; [now apply Permutation_sym|exact Ha].
Qed.

(** The time table does not depend on the order or the partitioning in which
    the engine presents the log: two logs holding the same records give the
    same rows. *)
Theorem time_table_order_independent (log log' : list (list RawLog.t))
  (song_df song_df' : list Song.t) (artists_df artists_df' : list Artist.t) :
  Permutation (List.concat log) (List.concat log') ->
  Permutation (Tables.time (process_log_data log song_df artists_df))
              (Tables.time (process_log_data log' song_df' artists_df')).
Proof.
  intros HP. simpl. rewrite !next_song_rows_concat.
  apply time_table_perm, Permutation_map.
  now apply Permutation_filter_stable.
Qed.

Lemma time_table_order_independent_sample :
  Permutation (List.concat tied_log) (List.concat tied_log_swapped) /\
  Permutation (Tables.time (process_log_data tied_log [] []))
              (Tables.time (process_log_data tied_log_swapped [] [])).
Proof.
  assert (HP : Permutation (List.concat tied_log)
                           (List.concat tied_log_swapped))
    by (simpl; apply perm_swap).
  split; [exact HP|].
  exact (time_table_order_independent tied_log tied_log_swapped [] [] [] [] HP).
Defined.

(** ** Further properties of the catalog branch *)

(** The song and artist tables do not depend on the order in which the
    catalog records are presented, nor on how often a record is repeated:
    catalogs holding the same records give the same rows. *)
Theorem song_artist_tables_depend_on_record_set (catalog catalog' : list RawSong.t) :
  (forall r, In r catalog <-> In r catalog') ->
  Permutation (songs_table catalog) (songs_table catalog') /\
  Permutation (artists_table catalog) (artists_table catalog').
Proof.
  intros H. split; apply NoDup_Permutation;
    try apply songs_table_NoDup; try apply artists_table_NoDup.
  - intros s. rewrite !songs_table_In.
    split; intros [r [Hr E]]; exists r; (split; [apply H; exact Hr|exact E]).
  - intros a. rewrite !artists_table_In.
    split; intros [r [Hr E]]; exists r; (split; [apply H; exact Hr|exact E]).
Qed.

Lemma song_artist_tables_depend_on_record_set_sample :
  (forall r, In r [intro_record; outro_record]
             <-> In r [outro_record; intro_record; outro_record]) /\
  Permutation (songs_table [intro_record; outro_record])
              (songs_table [outro_record; intro_record; outro_record]).
Proof.
  assert (H : forall r, In r [intro_record; outro_record]
                        <-> In r [outro_record; intro_record; outro_record])
    by (intros r; simpl; tauto).
  split; [exact H|].
  exact (proj1 (song_artist_tables_depend_on_record_set _ _ H)).
Defined.

(** ** Further properties of users and song plays *)

(** The user table holds nothing else: its key column lists, each once, the
    distinct non-null [userId] values of the song plays, and every row is
    the projection of a most recent song play of its user. *)
Theorem users_table_exact (log : list (list RawLog.t))
  (song_df : list Song.t) (artists_df : list Artist.t) :
  map User.user_id (Tables.users (process_log_data log song_df artists_df))
  = filter is_not_null
      (Spark.dropDuplicates ostring_eq_dec
         (map RawLog.userId (filter is_next_song (List.concat log))))
  /\
  forall row,
    In row (Tables.users (process_log_data log song_df artists_df)) ->
    exists r, is_latest (filter is_next_song (List.concat log)) r /\
              is_next_song r = true /\ row = user_of r.
Proof.
  simpl. rewrite next_song_rows_concat. split; [apply users_table_keys|].
  intros row H. apply users_table_In in H as [r [Hin [_ [Htop ->]]]].
  exists r. split; [|split; [|reflexivity]].
  - destruct (top_ranked_sound (filter is_next_song (List.concat log))
                (RawLog.userId r) r) as [_ [_ Hl]];
      [rewrite Htop; now left|exact Hl].
  - now apply filter_In in Hin.
Qed.

Section MatchFacts.
Context {B : Type}.
Variable f : B -> option string.

Lemma no_match_outside (x : option string) (l : list B) (k : string) :
  x = Some k -> ~ In (Some k) (filter is_not_null (map f l)) ->
  filter (fun b => sql_eq x (f b)) l = [].
Proof.
  intros -> Hn. induction l as [|b l IH]; [reflexivity|].
  cbn [filter map] in *.
  destruct (f b) as [t|] eqn:Eb; cbn [is_not_null filter] in Hn.
  - destruct (sql_eq (Some k) (Some t)) eqn:E.
    + apply String.eqb_eq in E. subst. exfalso; apply Hn; now left.
    + apply IH. intros H; apply Hn; now right.
  - apply IH, Hn.
Qed.

(** With unique keys on the right, a name matches at most one row. *)
Lemma at_most_one_match (x : option string) (l : list B) :
  NoDup (filter is_not_null (map f l)) ->
  (List.length (filter (fun b => sql_eq x (f b)) l) <= 1)%nat.
Proof.
  intros Hnd. destruct x as [k|].
  - induction l as [|b l IH]; [simpl; lia|].
    cbn [filter map] in *.
    destruct (f b) as [t|] eqn:Eb; cbn [is_not_null filter] in Hnd.
    + inversion Hnd as [|? ? Ht Hl]; subst.
      destruct (sql_eq (Some k) (Some t)) eqn:E; [|now apply IH].
      apply String.eqb_eq in E. subst.
      rewrite (no_match_outside (Some t) l t eq_refl Ht). simpl; lia.
    + now apply IH.
  - replace (filter (fun b => sql_eq None (f b)) l) with (@nil B);
      [simpl; lia|].
    clear Hnd. induction l as [|b l IH]; [reflexivity|]. simpl. exact IH.
Qed.
End MatchFacts.

Lemma left_join_no_fanout {A B : Type} (on : A -> B -> bool)
  (l : list A) (r : list B) :
  (forall a, (List.length (filter (on a) r) <= 1)%nat) ->
  map fst (Spark.left_join on l r) = l.
Proof.
  intros H. unfold Spark.left_join.
  induction l as [|a l IH]; [reflexivity|].
  cbn [flat_map]. rewrite map_app, IH. specialize (H a).
  destruct (filter (on a) r) as [|m [|m' ms]]; simpl in *;
    [reflexivity|reflexivity|lia].
Qed.

Lemma dropDuplicates_NoDup_id {A : Type}
  (dec : forall x y : A, {x = y} + {x <> y}) (l : list A) :
  NoDup l -> Spark.dropDuplicates dec l = l.
Proof.
  intros H. rewrite <- (app_nil_r l) at 1.
  apply distinct_from_app_absorb; simpl; tauto.
Qed.

(** Without ties there is no fan-out: when no two songs share a title and
    no two artists share a name, and within the id capacity, the song play
    table has exactly one row per song play of the log, in the order of
    [log_raw], and [songplay_id] is then a key of the table. *)
Theorem songplays_without_fanout (log : list (list RawLog.t))
  (song_df : list Song.t) (artists_df : list Artist.t) :
  id_capacity (next_song_rows log) ->
  unique_titles song_df -> unique_names artists_df ->
  map SongPlay.songplay_id
    (Tables.songplays (process_log_data log song_df artists_df))
  = map LogRaw.songplay_id (log_raw_view log)
  /\
  NoDup (map SongPlay.songplay_id
           (Tables.songplays (process_log_data log song_df artists_df)))
  /\
  List.length (Tables.songplays (process_log_data log song_df artists_df))
  = List.length (filter is_next_song (List.concat log)).
Proof.
  intros Hcap Ht Hn.
  pose proof (log_raw_view_ids_NoDup log Hcap) as Hids.
  assert (E : map SongPlay.songplay_id
                (map select_songplay
                   (Spark.left_join on_name
                      (Spark.left_join on_title (log_raw_view log) song_df)
                      artists_df))
              = map LogRaw.songplay_id (log_raw_view log)).
  { rewrite map_map.
    rewrite <- (left_join_no_fanout on_title (log_raw_view log) song_df)
      at 2.
    - rewrite <- (left_join_no_fanout on_name
                    (Spark.left_join on_title (log_raw_view log) song_df)
                    artists_df) at 2.
      + rewrite !map_map. apply map_ext. now intros [[a b] c].
      + intros ab. apply (at_most_one_match Artist.name), Hn.
    - intros a. apply (at_most_one_match Song.title), Ht. }
  assert (Eids : map SongPlay.songplay_id
                   (Tables.songplays (process_log_data log song_df artists_df))
                 = map LogRaw.songplay_id (log_raw_view log)).
  { simpl. unfold songplays_table.
    rewrite dropDuplicates_NoDup_id; [exact E|].
    apply (NoDup_map_inv SongPlay.songplay_id). now rewrite E. }
  split; [exact Eids|]. split; [now rewrite Eids|].
  rewrite <- (length_map SongPlay.songplay_id), Eids, length_map.
  apply log_raw_view_length.
Qed.

Lemma songplays_without_fanout_sample :
  id_capacity (next_song_rows fanout_log) /\
  unique_titles (songs_table sample_catalog) /\
  unique_names (artists_table sample_catalog) /\
  List.length
    (Tables.songplays
       (process_log_data fanout_log (songs_table sample_catalog)
          (artists_table sample_catalog)))
  = List.length (filter is_next_song (List.concat fanout_log)).
Proof.
  assert (Hcap : id_capacity (next_song_rows fanout_log)).
  { split; [vm_compute; discriminate|].
    repeat constructor; vm_compute; discriminate. }
  assert (Ht : unique_titles (songs_table sample_catalog)).
  { unfold unique_titles. vm_compute.
    repeat constructor; simpl; intuition discriminate. }
  assert (Hn : unique_names (artists_table sample_catalog)).
  { unfold unique_names. vm_compute.
    repeat constructor; simpl; intuition discriminate. }
  split; [exact Hcap|split; [exact Ht|split; [exact Hn|]]].
  exact (proj2 (proj2 (songplays_without_fanout fanout_log
                         (songs_table sample_catalog)
                         (artists_table sample_catalog) Hcap Ht Hn))).
Defined.

(** ** Calendar columns *)

Lemma civil_from_days_ranges (days : Z) :
  1 <= snd (fst (civil_from_days days)) <= 12 /\
  1 <= snd (civil_from_days days) <= 31.
Proof.
  unfold civil_from_days. cbv zeta. cbn [fst snd].
  set (z := days + 719468).
  set (era := z / 146097).
  set (doe := z - era * 146097).
  assert (Hdoe : 0 <= doe <= 146096).
  { subst doe era. pose proof (Z.div_mod z 146097).
    pose proof (Z.mod_pos_bound z 146097). lia. }
  clearbody doe. clear z era.
  set (yoe := (doe - doe / 1460 + doe / 36524 - doe / 146096) / 365).
  set (doy := doe - (365 * yoe + yoe / 4 - yoe / 100)).
  assert (Hdoy : 0 <= doy <= 365)
    by (subst doy yoe; Z.div_mod_to_equations; lia).
  clearbody doy.
  set (mp := (5 * doy + 2) / 153).
  assert (0 <= mp <= 11) by (subst mp; Z.div_mod_to_equations; lia).
  assert (1 <= doy - (153 * mp + 2) / 5 + 1 <= 31)
    by (subst mp; Z.div_mod_to_equations; lia).
  destruct (mp <? 10) eqn:E; [apply Z.ltb_lt in E|apply Z.ltb_ge in E]; lia.
Qed.

Lemma days_from_civil_january (y : Z) :
  days_from_civil y 1 1
  = (y - 1) / 400 * 146097
    + (((y - 1) - (y - 1) / 400 * 400) * 365
       + ((y - 1) - (y - 1) / 400 * 400) / 4
       - ((y - 1) - (y - 1) / 400 * 400) / 100 + 306) - 719468.
Proof. unfold days_from_civil. cbn. reflexivity. Qed.

(** A day lies 0 to 365 days after the first of January of its year. *)
Lemma day_of_year_range (days : Z) :
  0 <= days - days_from_civil (fst (fst (civil_from_days days))) 1 1 <= 365.
Proof.
  rewrite days_from_civil_january.
  unfold civil_from_days. cbv zeta. cbn [fst snd].
  set (z := days + 719468).
  assert (Hz : days = z - 719468) by (subst z; lia).
  set (era := z / 146097).
  set (doe := z - era * 146097).
  assert (Hdoe : 0 <= doe <= 146096).
  { subst doe era. pose proof (Z.div_mod z 146097).
    pose proof (Z.mod_pos_bound z 146097). lia. }
  assert (Hzd : z = era * 146097 + doe) by (subst doe; lia).
  clearbody doe era. rewrite Hz, Hzd. clear Hz Hzd z days.
  set (yoe := (doe - doe / 1460 + doe / 36524 - doe / 146096) / 365).
  assert (Hyoe : 0 <= yoe <= 399)
    by (subst yoe; Z.div_mod_to_equations; lia).
  set (doy := doe - (365 * yoe + yoe / 4 - yoe / 100)).
  assert (Hdoy : 0 <= doy <= 365)
    by (subst doy yoe; Z.div_mod_to_equations; lia).
  assert (Hd : doe = 365 * yoe + yoe / 4 - yoe / 100 + doy)
    by (subst doy; lia).
  clearbody doy yoe. subst doe.
  set (mp := (5 * doy + 2) / 153).
  assert (Hmp : (mp < 10 <-> doy < 306) /\ 0 <= mp <= 11)
    by (subst mp; Z.div_mod_to_equations; lia).
  clearbody mp.
  destruct (mp <? 10) eqn:E; [apply Z.ltb_lt in E|apply Z.ltb_ge in E].
  - assert (Hm : (mp + 3 <=? 2) = false) by (apply Z.leb_gt; lia).
    rewrite Hm.
    replace (yoe + era * 400 + 0 - 1) with (yoe - 1 + era * 400) by lia.
    Z.div_mod_to_equations; lia.
  - assert (Hm : (mp - 9 <=? 2) = true) by (apply Z.leb_le; lia).
    rewrite Hm.
    replace (yoe + era * 400 + 1 - 1) with (yoe + era * 400) by lia.
    Z.div_mod_to_equations; lia.
Qed.

Lemma weekofyear_range (t : Z) : 1 <= weekofyear t <= 53.
Proof.
  unfold weekofyear. cbv zeta.
  pose proof (day_of_year_range (epoch_day t - weekday_index t + 3)).
  Z.div_mod_to_equations; lia.
Qed.

Lemma hour_range (t : Z) : 0 <= hour t <= 23.
Proof. unfold hour. pose proof (Z.mod_pos_bound (t / micros_per_hour) 24). lia. Qed.

Lemma date_format_E_name (t : Z) : In (date_format_E t) day_names.
Proof.
  unfold date_format_E. apply nth_In. unfold weekday_index.
  pose proof (Z.mod_pos_bound (epoch_day t + 3) 7). simpl. lia.
Qed.

(** Every row of the time table is fully populated (so the partition
    columns [year] and [month] are never null) and its calendar columns lie
    in their ranges: hour 0..23, day 1..31, ISO week 1..53, month 1..12, and
    a weekday among the seven three-letter names.  The start time is a
    whole number of milliseconds. *)
Theorem time_table_rows_in_range (log : list (list RawLog.t))
  (song_df : list Song.t) (artists_df : list Artist.t) (row : Time.t) :
  In row (Tables.time (process_log_data log song_df artists_df)) ->
  exists t h d w m y n,
    row = Time.mk (Some t) (Some h) (Some d) (Some w) (Some m) (Some y)
                  (Some n) /\
    t mod 1000 = 0 /\
    0 <= h <= 23 /\ 1 <= d <= 31 /\ 1 <= w <= 53 /\ 1 <= m <= 12 /\
    In n day_names.
Proof.
  intros H. apply time_table_In in H as [r [v [_ [_ [_ [Hv ->]]]]]].
  exists (v * 1000), (hour (v * 1000)), (dayofmonth (v * 1000)),
         (weekofyear (v * 1000)), (month (v * 1000)), (year (v * 1000)),
         (date_format_E (v * 1000)).
  destruct (civil_from_days_ranges (epoch_day (v * 1000))) as [Hm Hd].
  repeat split;
    try apply hour_range; try apply weekofyear_range;
    try apply date_format_E_name;
    try (unfold month, dayofmonth; lia).
  apply Z_mod_mult.
Qed.

Lemma time_table_rows_in_range_sample :
  In november_row (Tables.time (process_log_data fanout_log [] [])) /\
  exists t h d w m y n,
    november_row = Time.mk (Some t) (Some h) (Some d) (Some w) (Some m)
                           (Some y) (Some n) /\
    t mod 1000 = 0 /\
    0 <= h <= 23 /\ 1 <= d <= 31 /\ 1 <= w <= 53 /\ 1 <= m <= 12 /\
    In n day_names.
Proof.
  assert (H : In november_row (Tables.time (process_log_data fanout_log [] [])))
    by (vm_compute; left; reflexivity).
  split; [exact H|].
  exact (time_table_rows_in_range fanout_log [] [] november_row H).
Defined.

(** ** Order of the synthetic ids *)

Lemma monotonically_increasing_id_value (p c : Z) :
  0 <= p < 2 ^ 30 -> 0 <= c < 2 ^ 33 ->
  monotonically_increasing_id p c = p * 2 ^ 33 + c.
Proof.
  unfold monotonically_increasing_id, wrap64.
  rewrite Z.shiftl_mul_pow2 by lia.
  change (2 ^ 30) with 1073741824. change (2 ^ 33) with 8589934592.
  change (2 ^ 63) with 9223372036854775808.
  change (2 ^ 64) with 18446744073709551616.
  intros Hp Hc. rewrite Z.mod_small; lia.
Qed.

Lemma StronglySorted_lt_app (l1 l2 : list Z) :
  StronglySorted Z.lt l1 -> StronglySorted Z.lt l2 ->
  (forall x y, In x l1 -> In y l2 -> x < y) ->
  StronglySorted Z.lt (l1 ++ l2).
Proof.
  intros H1 H2 H. induction H1 as [|x l1 Hs IH Hx]; simpl; [exact H2|].
  constructor.
  - apply IH. intros; apply H; simpl; auto.
  - apply Forall_app; split; [exact Hx|].
    apply Forall_forall; intros y Hy. apply H; simpl; auto.
Qed.

Lemma number_rows_sorted (p c : Z) (part : list (RawLog.t * option Z)) :
  0 <= p < 2 ^ 30 -> 0 <= c -> c + Z.of_nat (List.length part) <= 2 ^ 33 ->
  StronglySorted Z.lt (map LogRaw.songplay_id (number_rows p c part)).
Proof.
  revert c; induction part as [|x part IH]; intros c Hp Hc Hlen; simpl.
  - constructor.
  - simpl in Hlen. constructor; [apply IH; lia|].
    apply Forall_forall; intros i Hi.
    apply in_map_iff in Hi as [a [<- Ha]].
    apply number_rows_ids in Ha as [j [Hj ->]].
    rewrite !monotonically_increasing_id_value by lia. lia.
Qed.

Lemma number_partitions_sorted (p : Z)
  (df : list (list (RawLog.t * option Z))) :
  0 <= p -> p + Z.of_nat (List.length df) <= 2 ^ 30 ->
  Forall (fun part => Z.of_nat (List.length part) <= 2 ^ 33) df ->
  StronglySorted Z.lt
    (map LogRaw.songplay_id (List.concat (number_partitions p df))).
Proof.
  revert p; induction df as [|part df IH]; intros p Hp Hlen Hcap; simpl.
  - constructor.
  - simpl in Hlen. inversion Hcap as [|? ? Hpart Hrest]; subst.
    rewrite map_app. apply StronglySorted_lt_app.
    + apply number_rows_sorted; lia.
    + apply IH; [lia|lia|exact Hrest].
    + intros i i' Hi Hi'.
      apply in_map_iff in Hi as [a [<- Ha]].
      apply in_map_iff in Hi' as [b [<- Hb]].
      apply number_rows_ids in Ha as [j [Hj ->]].
      apply number_partitions_ids in Hb as [q [j' [Hq [Hj' ->]]]];
        [|exact Hrest].
      rewrite !monotonically_increasing_id_value by lia.
      change (2 ^ 33) with 8589934592 in *. lia.
Qed.

Lemma number_partitions_nonneg (p : Z)
  (df : list (list (RawLog.t * option Z))) (a : LogRaw.t) :
  0 <= p -> p + Z.of_nat (List.length df) <= 2 ^ 30 ->
  Forall (fun part => Z.of_nat (List.length part) <= 2 ^ 33) df ->
  In a (List.concat (number_partitions p df)) ->
  0 <= LogRaw.songplay_id a < 2 ^ 63.
Proof.
  intros Hp Hlen Hcap Ha.
  apply number_partitions_ids in Ha as [q [j [Hq [Hj ->]]]]; [|exact Hcap].
  rewrite monotonically_increasing_id_value by lia.
  change (2 ^ 30) with 1073741824 in *. change (2 ^ 33) with 8589934592 in *.
  change (2 ^ 63) with 9223372036854775808. lia.
Qed.

(** With at most 2^30 partitions of at most 2^33 song plays each, the ids
    given to the rows of [log_raw] never wrap: they are non-negative and
    strictly increasing in the order in which the engine presents the
    rows. *)
Theorem songplay_ids_increase (log : list (list RawLog.t)) :
  Z.of_nat (List.length (next_song_rows log)) <= 2 ^ 30 ->
  Forall (fun part => Z.of_nat (List.length part) <= 2 ^ 33)
         (next_song_rows log) ->
  StronglySorted Z.lt (map LogRaw.songplay_id (log_raw_view log)) /\
  forall a, In a (log_raw_view log) -> 0 <= LogRaw.songplay_id a < 2 ^ 63.
Proof.
  intros Hn Hall.
  assert (Hn' : Z.of_nat (List.length
                            (map (map with_start_time) (next_song_rows log)))
                <= 2 ^ 30) by now rewrite length_map.
  assert (Hall' : Forall (fun part => Z.of_nat (List.length part) <= 2 ^ 33)
                         (map (map with_start_time) (next_song_rows log))).
  { apply Forall_map. eapply Forall_impl; [|exact Hall].
    intros part H; simpl in *. now rewrite length_map. }
  unfold log_raw_view, with_songplay_id. split.
  - apply number_partitions_sorted; [lia|lia|exact Hall'].
  - intros a. apply number_partitions_nonneg; [lia|lia|exact Hall'].
Qed.

Lemma songplay_ids_increase_sample :
  Z.of_nat (List.length (next_song_rows duo_log)) <= 2 ^ 30 /\
  Forall (fun part => Z.of_nat (List.length part) <= 2 ^ 33)
         (next_song_rows duo_log) /\
  StronglySorted Z.lt (map LogRaw.songplay_id (log_raw_view duo_log)).
Proof.
  assert (Hn : Z.of_nat (List.length (next_song_rows duo_log)) <= 2 ^ 30)
    by (vm_compute; discriminate).
  assert (Hall : Forall (fun part => Z.of_nat (List.length part) <= 2 ^ 33)
                        (next_song_rows duo_log))
    by (repeat constructor; vm_compute; discriminate).
  split; [exact Hn|split; [exact Hall|]].
  exact (proj1 (songplay_ids_increase duo_log Hn Hall)).
Defined.

(** ** Sizes and coverage *)

(** The song table has at least one row per distinct non-null [song_id] of
    the catalog and at most one row per catalog record with a non-null
    [song_id]; likewise the artist table and [artist_id]. *)
Theorem song_artist_table_sizes (catalog : list RawSong.t) :
  (List.length
     (Spark.dropDuplicates ostring_eq_dec
        (filter is_not_null (map RawSong.song_id catalog)))
   <= List.length (songs_table catalog)
   <= List.length (filter (fun r => is_not_null (RawSong.song_id r)) catalog))%nat
  /\
  (List.length
     (Spark.dropDuplicates ostring_eq_dec
        (filter is_not_null (map RawSong.artist_id catalog)))
   <= List.length (artists_table catalog)
   <= List.length (filter (fun r => is_not_null (RawSong.artist_id r)) catalog))%nat.
Proof.
  repeat split.
  - rewrite <- (length_map Song.song_id (songs_table catalog)).
    apply NoDup_incl_length; [apply dropDuplicates_NoDup|].
    intros k Hk. apply dropDuplicates_In, filter_In in Hk as [Hk Hn].
    apply in_map_iff in Hk as [r [<- Hr]].
    apply in_map_iff. exists (select_song r). split; [reflexivity|].
    apply songs_table_In. exists r. repeat split; auto.
    destruct (RawSong.song_id r); [discriminate|discriminate Hn].
  - rewrite <- (length_map select_song
                  (filter (fun r => is_not_null (RawSong.song_id r)) catalog)).
    apply NoDup_incl_length; [apply songs_table_NoDup|].
    intros s Hs. apply songs_table_In in Hs as [r [Hr [-> Hn]]].
    apply in_map, filter_In. split; [exact Hr|].
    destruct (RawSong.song_id r); [reflexivity|congruence].
  - rewrite <- (length_map Artist.artist_id (artists_table catalog)).
    apply NoDup_incl_length; [apply dropDuplicates_NoDup|].
    intros k Hk. apply dropDuplicates_In, filter_In in Hk as [Hk Hn].
    apply in_map_iff in Hk as [r [<- Hr]].
    apply in_map_iff. exists (select_artist r). split; [reflexivity|].
    apply artists_table_In. exists r. repeat split; auto.
    destruct (RawSong.artist_id r); [discriminate|discriminate Hn].
  - rewrite <- (length_map select_artist
                  (filter (fun r => is_not_null (RawSong.artist_id r)) catalog)).
    apply NoDup_incl_length; [apply artists_table_NoDup|].
    intros a Ha. apply artists_table_In in Ha as [r [Hr [-> Hn]]].
    apply in_map, filter_In. split; [exact Hr|].
    destruct (RawSong.artist_id r); [reflexivity|congruence].
Qed.

(** Every user row and every time row is referenced by the fact table: some
    song play row carries its key. *)
Theorem dimension_rows_are_referenced (log : list (list RawLog.t))
  (song_df : list Song.t) (artists_df : list Artist.t) :
  (forall urow,
     In urow (Tables.users (process_log_data log song_df artists_df)) ->
     exists row,
       In row (Tables.songplays (process_log_data log song_df artists_df)) /\
       SongPlay.user_id row = User.user_id urow)
  /\
  (forall trow,
     In trow (Tables.time (process_log_data log song_df artists_df)) ->
     exists row,
       In row (Tables.songplays (process_log_data log song_df artists_df)) /\
       SongPlay.start_time row = Time.start_time trow).
Proof.
  assert (Hkeep : forall r, In r (List.concat log) -> is_next_song r = true ->
            exists row,
              In row (Tables.songplays
                        (process_log_data log song_df artists_df)) /\
              SongPlay.user_id row = RawLog.userId r /\
              SongPlay.start_time row = get_timestamp (RawLog.ts r)).
  { intros r Hr Hp.
    destruct (log_raw_view_of_record log r Hr Hp) as [a [Ha [Erow Est]]].
    destruct (songplays_table_keeps (log_raw_view log) song_df artists_df a Ha)
      as [b [c [Hin _]]].
    exists (select_songplay (a, b, c)). split; [exact Hin|].
    simpl. rewrite Erow. auto. }
  split.
  - intros urow Hu. simpl in Hu. rewrite next_song_rows_concat in Hu.
    apply users_table_In in Hu as [r [Hin [_ [_ ->]]]].
    apply filter_In in Hin as [Hin Hp].
    destruct (Hkeep r Hin Hp) as [row [H1 [H2 _]]]. exists row. auto.
  - intros trow Ht.
    apply time_table_In in Ht as [r [v [Hin [Hp [Ev [Hv ->]]]]]].
    destruct (Hkeep r Hin Hp) as [row [H1 [_ H3]]]. exists row.
    split; [exact H1|]. rewrite H3. simpl.
    apply get_timestamp_Some. eauto.
Qed.
